(** * Verification of [x_media_scraper.py]

    A shallow embedding of the scraper's own code (the filename sanitizer,
    the image and video download helpers, the post iterator, the run loop
    and the persistence step of [main]) together with the properties the
    specification states about them.

    Modelling conventions.
    - A Python [str] is a [string]; every character the program inspects
      is ASCII, and [len] counts characters.
    - A Python [int] is a [Z].
    - The local file system is a finite map from path to file content.
    - The remote collaborators (snscrape, the HTTP session, yt-dlp) and the
      delivery of Ctrl-C are oracles collected in [Env]; every theorem
      quantifies over all of them.
    - Exceptions are explicit: a computation returns [Ok v] or [Raise e]
      together with the world it leaves behind (no roll-back).  Ctrl-C is
      delivered at the blocking calls: the HTTP request, the yt-dlp
      session, [time.sleep], and the scraper's own fetches.
    - Left out: the progress bar and the printed messages, the creation of
      directories, and failures of the local disk. *)

From Stdlib Require Import ZArith Ascii String List Lia.
From Stdlib Require Import DecimalString DecimalPos DecimalZ.
From stdpp Require Import base option list gmap strings.

Local Open Scope Z_scope.

#[local] Set Warnings "-register-all".

#[local] Arguments String.append !s1 s2 /.

(* ===================================================================== *)
(** * Python built-ins used by the script *)
(* ===================================================================== *)

Module Py.

(** [len(s)] *)
Definition len (s : string) : Z := Z.of_nat (String.length s).

(** [str(n)] for an [int]: decimal, a leading [-] for negatives. *)
Definition str_of_int (n : Z) : string :=
  NilEmpty.string_of_int (Z.to_int n).

(** Truth value of a string ([if s:]). *)
Definition truthy (s : string) : bool :=
  match s with EmptyString => false | _ => true end.

(** Truth value of an optional string ([None] and the empty string are
    false). *)
Definition truthy_opt (o : option string) : bool :=
  match o with Some s => truthy s | None => false end.

(** [a or b] on optional strings. *)
Definition or_else (a b : option string) : option string :=
  if truthy_opt a then a else b.

(** First [n] characters. *)
Fixpoint take (n : nat) (s : string) : string :=
  match n, s with
  | S k, String c r => String c (take k r)
  | _, _ => EmptyString
  end.

(** [s[:stop]]: a negative [stop] counts from the end. *)
Definition slice_to (s : string) (stop : Z) : string :=
  if stop <? 0 then take (Z.to_nat (len s + stop)) s
  else take (Z.to_nat stop) s.

(** [s.startswith(p)] *)
Fixpoint starts_with (p s : string) : bool :=
  match p, s with
  | EmptyString, _ => true
  | String a p', String b s' => if Ascii.eqb a b then starts_with p' s' else false
  | String _ _, EmptyString => false
  end.

(** [sub in s] *)
Fixpoint contains (sub s : string) : bool :=
  if starts_with sub s then true
  else match s with
       | EmptyString => false
       | String _ r => contains sub r
       end.

(** [s.split(sep)] for a one-character separator. *)
Fixpoint split_on (sep : ascii) (s : string) : list string :=
  match s with
  | EmptyString => [EmptyString]
  | String c r =>
      if Ascii.eqb c sep then EmptyString :: split_on sep r
      else match split_on sep r with
           | x :: xs => String c x :: xs
           | [] => [String c EmptyString]
           end
  end.

(** Removes a prefix when it is there. *)
Fixpoint strip_prefix (p s : string) : option string :=
  match p, s with
  | EmptyString, _ => Some s
  | String a p', String b s' => if Ascii.eqb a b then strip_prefix p' s' else None
  | String _ _, EmptyString => None
  end.

End Py.

(* ===================================================================== *)
(** * [safe_filename] *)
(* ===================================================================== *)

(** The character class of the regular expression: backslash, slash,
    colon, star, question mark, double quote, angle brackets and bar. *)
Definition forbidden (c : ascii) : bool :=
  match c with
  | "\"%char | "/"%char | ":"%char | "*"%char | "?"%char
  | "034"%char | "<"%char | ">"%char | "|"%char => true
  | _ => false
  end.

(** [re.sub] with the pattern [class+] and an underscore as the
    replacement.  The scan goes left to right;
    [in_match] records that the previous character already belongs to the
    current (greedy) match, whose replacement has been emitted. *)
Fixpoint re_sub_from (in_match : bool) (name : string) : string :=
  match name with
  | EmptyString => EmptyString
  | String c rest =>
      if forbidden c then
        if in_match then re_sub_from true rest
        else String "_" (re_sub_from true rest)
      else String c (re_sub_from false rest)
  end.

Definition re_sub (name : string) : string := re_sub_from false name.

Definition safe_filename (name : string) (maxlen : Z) : string :=
  let name := re_sub name in
  if Py.len name >? maxlen then Py.slice_to name maxlen else name.

(** The default of the [maxlen] parameter. *)
Definition default_maxlen : Z := 150.

(* ===================================================================== *)
(** * JSON documents and Python's [json] encoder *)
(* ===================================================================== *)

Module Json.

(** The values the script serialises: [None], integers, strings, lists and
    dictionaries (insertion-ordered, hence an association list). *)
Inductive value :=
| Null
| Int (n : Z)
| Str (s : string)
| Arr (items : list value)
| Obj (members : list (string * value)).

(** [d.get(key)] on a dictionary. *)
Fixpoint lookup (key : string) (members : list (string * value)) : option value :=
  match members with
  | [] => None
  | (k, v) :: rest => if String.eqb k key then Some v else lookup key rest
  end.

Definition field (key : string) (v : value) : option value :=
  match v with Obj members => lookup key members | _ => None end.

Definition quote : ascii := "034"%char.
Definition LF : ascii := "010"%char.

Definition hex_digit (n : N) : ascii :=
  match n with
  | 0 => "0" | 1 => "1" | 2 => "2" | 3 => "3" | 4 => "4" | 5 => "5"
  | 6 => "6" | 7 => "7" | 8 => "8" | 9 => "9" | 10 => "a" | 11 => "b"
  | 12 => "c" | 13 => "d" | 14 => "e" | _ => "f"
  end%N%char.

(** [ESCAPE_DCT] of [json.encoder] as used with [ensure_ascii=False]: the
    quote, the backslash and the control characters below 0x20. *)
Definition escape_char (c : ascii) : string :=
  match c with
  | "034"%char => String "\" (String quote EmptyString)
  | "\"%char => "\\"
  | "008"%char => "\b"
  | "012"%char => "\f"
  | "010"%char => "\n"
  | "013"%char => "\r"
  | "009"%char => "\t"
  | _ =>
      let n := N_of_ascii c in
      if (n <? 32)%N then
        "\u00" +:+ String (hex_digit (n / 16)) (String (hex_digit (n mod 16)) EmptyString)
      else String c EmptyString
  end.

Fixpoint escape (s : string) : string :=
  match s with
  | EmptyString => EmptyString
  | String c r => escape_char c +:+ escape r
  end.

Definition encode_string (s : string) : string :=
  String quote (escape s +:+ String quote EmptyString).

Fixpoint spaces (n : nat) : string :=
  match n with O => EmptyString | S k => String " " (spaces k) end.

(** [newline_indent] of the encoder at nesting depth [level]; empty when no
    indentation was asked for. *)
Definition newline_indent (indent : option nat) (level : nat) : string :=
  match indent with
  | None => EmptyString
  | Some k => String LF (spaces (k * level))
  end.

(** The default separators: [", "] without [indent], [","] with it. *)
Definition item_separator (indent : option nat) : string :=
  match indent with None => ", " | Some _ => "," end.

Definition key_separator : string := ": ".

(** [_iterencode] of [json.encoder]. *)
Fixpoint encode (indent : option nat) (level : nat) (v : value) : string :=
  match v with
  | Null => "null"
  | Int n => Py.str_of_int n
  | Str s => encode_string s
  | Arr [] => "[]"
  | Arr (x :: xs) =>
      "[" +:+ newline_indent indent (S level) +:+ encode indent (S level) x +:+
      (fix more (l : list value) : string :=
         match l with
         | [] => EmptyString
         | y :: l' =>
             item_separator indent +:+ newline_indent indent (S level) +:+
             encode indent (S level) y +:+ more l'
         end) xs +:+
      newline_indent indent level +:+ "]"
  | Obj [] => "{}"
  | Obj ((k, x) :: kxs) =>
      "{" +:+ newline_indent indent (S level) +:+
      encode_string k +:+ key_separator +:+ encode indent (S level) x +:+
      (fix more (l : list (string * value)) : string :=
         match l with
         | [] => EmptyString
         | (k', y) :: l' =>
             item_separator indent +:+ newline_indent indent (S level) +:+
             encode_string k' +:+ key_separator +:+
             encode indent (S level) y +:+ more l'
         end) kxs +:+
      newline_indent indent level +:+ "}"
  end.

(** [json.dumps(v, ensure_ascii=False)] *)
Definition dumps (v : value) : string := encode None 0 v.

(** [json.dump(v, f, ensure_ascii=False, indent=2)]: the text written. *)
Definition dump_indent2 (v : value) : string := encode (Some 2%nat) 0 v.

End Json.

(* ===================================================================== *)
(** * Data model *)
(* ===================================================================== *)

(** What reading an attribute of a scraped object can give: the attribute
    does not exist, it holds [None], or it holds a value. *)
Inductive attr (A : Type) :=
| Missing
| NoneVal
| Val (a : A).
Arguments Missing {A}.
Arguments NoneVal {A}.
Arguments Val {A} a.

(** [getattr(obj, name, None)] *)
Definition getattr {A} (a : attr A) : option A :=
  match a with Val v => Some v | _ => None end.

(** [getattr(obj, name, 0) or 0] on an integer attribute. *)
Definition getattr_or_0 (a : attr Z) : Z :=
  match a with Val v => v | _ => 0 end.

(** A media object of a post, told apart by [m.__class__.__name__]. *)
Inductive Media :=
| Photo (fullUrl url : option string)
| Video
| Gif
| OtherMedia.

(** An item yielded by the snscrape scraper. *)
Module Tweet.
Record t := {
  id : Z;
  date : attr string;          (* the value of [date.isoformat()] *)
  rawContent : attr string;
  replyCount : attr Z;
  retweetCount : attr Z;
  likeCount : attr Z;
  quoteCount : attr Z;
  viewCount : attr Z;
  media : attr (list Media)
}.
End Tweet.

Module MediaItem.
Record t := {
  type : string;
  url : string;
  local_path : option string
}.
End MediaItem.

Module TweetRecord.
Record t := {
  id : Z;
  url : string;
  date : string;
  content : string;
  replyCount : Z;
  retweetCount : Z;
  likeCount : Z;
  quoteCount : Z;
  viewCount : option Z;
  media : list MediaItem.t
}.
End TweetRecord.

(** [asdict(mi)] *)
Definition asdict_media (mi : MediaItem.t) : Json.value :=
  Json.Obj
    [("type", Json.Str (MediaItem.type mi));
     ("url", Json.Str (MediaItem.url mi));
     ("local_path",
      match MediaItem.local_path mi with
      | Some p => Json.Str p
      | None => Json.Null
      end)].

(** One element of [out_data]: [asdict(r)] with the [media] entry
    rewritten in place. *)
Definition out_record (r : TweetRecord.t) : Json.value :=
  Json.Obj
    [("id", Json.Int (TweetRecord.id r));
     ("url", Json.Str (TweetRecord.url r));
     ("date", Json.Str (TweetRecord.date r));
     ("content", Json.Str (TweetRecord.content r));
     ("replyCount", Json.Int (TweetRecord.replyCount r));
     ("retweetCount", Json.Int (TweetRecord.retweetCount r));
     ("likeCount", Json.Int (TweetRecord.likeCount r));
     ("quoteCount", Json.Int (TweetRecord.quoteCount r));
     ("viewCount",
      match TweetRecord.viewCount r with
      | Some n => Json.Int n
      | None => Json.Null
      end);
     ("media", Json.Arr (map asdict_media (TweetRecord.media r)))].

Definition out_data (records : list TweetRecord.t) : list Json.value :=
  map out_record records.

(* ===================================================================== *)
(** * The world: file system, trace of outside calls, oracles *)
(* ===================================================================== *)

Inductive exn :=
| KeyboardInterrupt
| Exception.       (* any exception derived from [Exception] *)

Inductive result (A : Type) :=
| Ok (a : A)
| Raise (e : exn).
Arguments Ok {A} a.
Arguments Raise {A} e.

(** The calls that leave the process, in the order they are made. *)
Inductive event :=
| EGet (url : string)                       (* [session.get] *)
| EWrite (path : string)                    (* a file opened for writing *)
| EYtdlp (tweet_url outtmpl : string) (cookiefile : option string)
| ESleep (millis : Z).                      (* [time.sleep] *)

Record World := {
  fs : gmap string string;     (* path -> content *)
  trace : list event
}.

(** Answer of the HTTP server to one [GET]. *)
Inductive http_reply :=
| Response (status_code : Z) (chunks : list string) (broken : option exn)
    (* [broken]: what [iter_content] raises after the last chunk, if anything *)
| GetRaises (e : exn).

(** Outcome of one yt-dlp session: the files it left on disk and the value
    of [extract_info] followed by [prepare_filename] ([Ok None] when no
    info came back). *)
Record yt_reply := {
  yt_files : list (string * string);
  yt_result : result (option string)
}.

(** The collaborators.  Each answer may depend on the whole world so far. *)
Record Env := {
  (** [TwitterSearchScraper(query).get_items()]: the posts it yields and
      the exception that ends the iteration, if one does. *)
  get_items : string -> list Tweet.t * option exn;
  session_get : World -> string -> http_reply;
  extract_info : World -> string -> string -> option string -> yt_reply;
  (** Whether Ctrl-C arrives during the [time.sleep] about to start. *)
  sleep_interrupted : World -> Z -> bool
}.

(** Computations that may raise and that change the world. *)
Definition M (A : Type) : Type := World -> result A * World.

Definition ret {A} (a : A) : M A := fun w => (Ok a, w).
Definition raise {A} (e : exn) : M A := fun w => (Raise e, w).
Definition bind {A B} (c : M A) (k : A -> M B) : M B :=
  fun w => match c w with
           | (Ok a, w') => k a w'
           | (Raise e, w') => (Raise e, w')
           end.

Notation "x <- c ;; k" := (bind c (fun x => k))
  (at level 90, c at next level, right associativity).
Notation "c ;;; k" := (bind c (fun _ => k))
  (at level 90, right associativity).

Definition log (e : event) : M unit :=
  fun w => (Ok tt, {| fs := fs w; trace := trace w ++ [e] |}).

Definition put_file (path content : string) : M unit :=
  fun w => (Ok tt, {| fs := <[path := content]> (fs w); trace := trace w |}).

(** [Path.exists()] *)
Definition path_exists (path : string) : M bool :=
  fun w => (Ok (bool_decide (is_Some (fs w !! path))), w).

(** [time.sleep]; only Ctrl-C can cut it short. *)
Definition sleep (env : Env) (millis : Z) : M unit :=
  fun w =>
    let w' := {| fs := fs w; trace := trace w ++ [ESleep millis] |} in
    if sleep_interrupted env w millis then (Raise KeyboardInterrupt, w')
    else (Ok tt, w').

(* ===================================================================== *)
(** * Paths *)
(* ===================================================================== *)

(** [Path(s).name]: the last component, empty and dot components being
    dropped by [pathlib]. *)
Definition path_name (s : string) : string :=
  default EmptyString
    (last (filter (fun c => c <> EmptyString /\ c <> ".") (Py.split_on "/" s))).

(** [base / name] for a [name] that [pathlib] leaves as it is (no empty or
    dot component, no trailing slash): an absolute name replaces the base,
    an empty one adds nothing. *)
Definition path_join (base name : string) : string :=
  match name with
  | EmptyString => base
  | String c _ => if Ascii.eqb c "/" then name else base +:+ "/" +:+ name
  end.

(** The pattern [<id>-*.*] of the skip check, on a file name. *)
Definition fnmatch_id (id_str name : string) : bool :=
  match Py.strip_prefix (id_str +:+ "-") name with
  | Some rest => Py.contains "." rest
  | None => false
  end.

(** The result of [dir.glob] for that pattern, as a list: the files directly in [dir] whose name
    matches, in the order the file system lists them. *)
Definition in_dir_matching (dir id_str path : string) : bool :=
  match Py.strip_prefix (dir +:+ "/") path with
  | Some name => fnmatch_id id_str name && negb (Py.contains "/" name)
  | None => false
  end.

Definition glob_id (dir id_str : string) (files : gmap string string) : list string :=
  filter (fun p => in_dir_matching dir id_str p = true) (map fst (map_to_list files)).

(* ===================================================================== *)
(** * The program *)
(* ===================================================================== *)

(** [download_image(url, dest, session)].  The request is logged, then
    answered by the server oracle; on status 200 the file is created and
    the non-empty chunks are written one after the other. *)
Fixpoint write_chunks (dest : string) (written : string) (chunks : list string)
    (broken : option exn) : M unit :=
  match chunks with
  | [] => match broken with
          | None => ret tt
          | Some e => raise e
          end
  | chunk :: more =>
      let written' := if Py.truthy chunk then written +:+ chunk else written in
      put_file dest written' ;;;
      write_chunks dest written' more broken
  end.

Definition download_image (env : Env) (url dest : string) : M bool :=
  fun w =>
    let reply := session_get env w url in
    (log (EGet url) ;;;
     match reply with
     | GetRaises e => raise e
     | Response status_code chunks broken =>
         if status_code =? 200 then
           log (EWrite dest) ;;;
           put_file dest EmptyString ;;;
           write_chunks dest EmptyString chunks broken ;;;
           ret true
         else ret false
     end) w.

(** [download_video_with_ytdlp(tweet_url, outtmpl, cookies)].  Whatever
    derives from [Exception] is swallowed; Ctrl-C is not. *)
Definition download_video_with_ytdlp (env : Env) (tweet_url outtmpl : string)
    (cookies : option string) : M (option string) :=
  fun w =>
    let cookiefile := if Py.truthy_opt cookies then cookies else None in
    let reply := extract_info env w tweet_url outtmpl cookiefile in
    (log (EYtdlp tweet_url outtmpl cookiefile) ;;;
     (fun w' => (Ok tt, {| fs := list_to_map (yt_files reply) ∪ fs w';
                           trace := trace w' |})) ;;;
     match yt_result reply with
     | Ok info => ret info
     | Raise Exception => ret None
     | Raise KeyboardInterrupt => raise KeyboardInterrupt
     end) w.

(** [iter_user_tweets(username, since, limit)]: the query it builds ... *)
Definition build_query (username : string) (since : option string) : string :=
  let query := "from:" +:+ username in
  match since with
  | Some d => if Py.truthy d then query +:+ " since:" +:+ d else query
  | None => query
  end.

(** ... and the generator loop over the items of the scraper.  An item is
    taken from the scraper before the limit is tested. *)
Fixpoint iter_from (limit count : Z) (items : list Tweet.t) (ending : option exn)
    : list Tweet.t * option exn :=
  match items with
  | [] => ([], ending)
  | tweet :: rest =>
      if negb (limit =? 0) && (count >=? limit) then ([], None)
      else
        let '(more, e) := iter_from limit (count + 1) rest ending in
        (tweet :: more, e)
  end.

Definition iter_user_tweets (env : Env) (username : string)
    (since : option string) (limit : Z) : list Tweet.t * option exn :=
  let '(items, ending) := get_items env (build_query username since) in
  iter_from limit 0 items ending.

(** Command-line arguments, [user] being the name finally used. *)
Record Args := {
  user : string;
  limit : Z;
  since : option string;
  cookies : option string;
  max_consec_errors : Z
}.

Definition base_dir (username : string) : string := path_join "downloads" username.
Definition images_dir (username : string) : string := path_join (base_dir username) "images".
Definition videos_dir (username : string) : string := path_join (base_dir username) "videos".
Definition json_path (username : string) : string :=
  path_join (base_dir username) (username +:+ ".json").
Definition jsonl_path (username : string) : string :=
  path_join (base_dir username) (username +:+ ".jsonl").

Definition tweet_url_of (username : string) (tweet : Tweet.t) : string :=
  "https://x.com/" +:+ username +:+ "/status/" +:+ Py.str_of_int (Tweet.id tweet).

(** The fetch of one photo: lines 177-186 of the script. *)
Definition fetch_photo (env : Env) (url dest : string) : M unit :=
  present <- path_exists dest ;;
  if present then ret tt
  else
    ok <- download_image env url dest ;;
    if ok then ret tt
    else if negb (Py.contains "name=" url) then
      (download_image env (url +:+ "?name=orig") dest ;;; ret tt)
    else ret tt.

(** One turn of [for m in media_set]; [media] is [rec.media] so far. *)
Definition handle_media (env : Env) (args : Args) (tweet : Tweet.t) (m : Media)
    (media : list MediaItem.t) : M (list MediaItem.t) :=
  let username := user args in
  let id_str := Py.str_of_int (Tweet.id tweet) in
  let tweet_url := tweet_url_of username tweet in
  match m with
  | Photo fullUrl url0 =>
      match Py.or_else fullUrl url0 with
      | None => ret media
      | Some url =>
          if negb (Py.truthy url) then ret media
          else
            let fname := safe_filename (id_str +:+ "_" +:+ path_name url) default_maxlen in
            let dest := path_join (images_dir username) fname in
            fetch_photo env url dest ;;;
            present <- path_exists dest ;;
            if present then
              ret (media ++ [{| MediaItem.type := "photo"; MediaItem.url := url;
                                MediaItem.local_path := Some dest |}])
            else ret media
      end
  | Video | Gif =>
      let outtmpl := path_join (videos_dir username) (id_str +:+ "-%(id)s.%(ext)s") in
      existing <- (fun w => (Ok (glob_id (videos_dir username) id_str (fs w)), w)) ;;
      final_path <-
        match existing with
        | [] => download_video_with_ytdlp env tweet_url outtmpl (cookies args)
        | first :: _ => ret (Some first)
        end ;;
      if Py.truthy_opt final_path then
        ret (media ++ [{| MediaItem.type := match m with Video => "video" | _ => "gif" end;
                          MediaItem.url := tweet_url;
                          MediaItem.local_path := final_path |}])
      else ret media
  | OtherMedia => ret media
  end.

Fixpoint handle_all (env : Env) (args : Args) (tweet : Tweet.t) (ms : list Media)
    (media : list MediaItem.t) : M (list MediaItem.t) :=
  match ms with
  | [] => ret media
  | m :: rest =>
      media' <- handle_media env args tweet m media ;;
      handle_all env args tweet rest media'
  end.

(** Reading an attribute that has to be there. *)
Definition require {A} (a : attr A) : M (option A) :=
  match a with
  | Missing => raise Exception      (* AttributeError *)
  | NoneVal => ret None
  | Val v => ret (Some v)
  end.

(** Lines 151-201: the record of one post, media included. *)
Definition build_record (env : Env) (args : Args) (tweet : Tweet.t) : M TweetRecord.t :=
  let tweet_url := tweet_url_of (user args) tweet in
  date <- require (Tweet.date tweet) ;;
  date <- match date with
          | Some d => ret d
          | None => raise Exception   (* [None] has no [isoformat] *)
          end ;;
  rawContent <- require (Tweet.rawContent tweet) ;;
  let rec0 :=
    {| TweetRecord.id := Tweet.id tweet;
       TweetRecord.url := tweet_url;
       TweetRecord.date := date;
       TweetRecord.content := default EmptyString rawContent;
       TweetRecord.replyCount := getattr_or_0 (Tweet.replyCount tweet);
       TweetRecord.retweetCount := getattr_or_0 (Tweet.retweetCount tweet);
       TweetRecord.likeCount := getattr_or_0 (Tweet.likeCount tweet);
       TweetRecord.quoteCount := getattr_or_0 (Tweet.quoteCount tweet);
       TweetRecord.viewCount := getattr (Tweet.viewCount tweet);
       TweetRecord.media := [] |} in
  media <- handle_all env args tweet (default [] (getattr (Tweet.media tweet))) [] ;;
  ret {| TweetRecord.id := TweetRecord.id rec0;
         TweetRecord.url := TweetRecord.url rec0;
         TweetRecord.date := TweetRecord.date rec0;
         TweetRecord.content := TweetRecord.content rec0;
         TweetRecord.replyCount := TweetRecord.replyCount rec0;
         TweetRecord.retweetCount := TweetRecord.retweetCount rec0;
         TweetRecord.likeCount := TweetRecord.likeCount rec0;
         TweetRecord.quoteCount := TweetRecord.quoteCount rec0;
         TweetRecord.viewCount := TweetRecord.viewCount rec0;
         TweetRecord.media := media |}.

(** The two variables of [main] the loop updates. *)
Record loop_state := {
  records : list TweetRecord.t;
  consec_errors : Z
}.

(** The body of the [try]: lines 151-206. *)
Definition try_block (env : Env) (args : Args) (tweet : Tweet.t) (st : loop_state)
    (w : World) : result unit * loop_state * World :=
  match build_record env args tweet w with
  | (Raise e, w1) => (Raise e, st, w1)
  | (Ok rec, w1) =>
      let st1 := {| records := records st ++ [rec]; consec_errors := 0 |} in
      let '(r, w2) := sleep env 200 w1 in
      (r, st1, w2)
  end.

(** How the [for] loop ends. *)
Inductive loop_exit :=
| Exhausted            (* the iterator stopped: no more posts, or the limit *)
| Interrupted          (* [break] in the [KeyboardInterrupt] handler *)
| TooManyErrors        (* [break] in the [Exception] handler *)
| Crashed (e : exn).   (* an exception nobody catches leaves [main] *)

(** The [for] loop of [main] over what the iterator yields. *)
Fixpoint run_loop (env : Env) (args : Args) (tweets : list Tweet.t)
    (ending : option exn) (st : loop_state) (w : World)
    : loop_exit * loop_state * World :=
  match tweets with
  | [] =>
      (match ending with None => Exhausted | Some e => Crashed e end, st, w)
  | tweet :: rest =>
      match try_block env args tweet st w with
      | (Ok _, st1, w1) => run_loop env args rest ending st1 w1
      | (Raise KeyboardInterrupt, st1, w1) => (Interrupted, st1, w1)
      | (Raise Exception, st1, w1) =>
          let st2 := {| records := records st1;
                        consec_errors := consec_errors st1 + 1 |} in
          if consec_errors st2 >=? max_consec_errors args then (TooManyErrors, st2, w1)
          else
            match sleep env 1000 w1 with
            | (Ok _, w2) => run_loop env args rest ending st2 w2
            | (Raise e, w2) => (Crashed e, st2, w2)
            end
      end
  end.

(** Lines 219-232: both files are opened for writing and filled. *)
Fixpoint jsonl_text (data : list Json.value) : string :=
  match data with
  | [] => EmptyString
  | r :: more => (Json.dumps r +:+ String Json.LF EmptyString) +:+ jsonl_text more
  end.

Definition persist (username : string) (recs : list TweetRecord.t) : M unit :=
  let data := out_data recs in
  log (EWrite (json_path username)) ;;;
  put_file (json_path username) (Json.dump_indent2 (Json.Arr data)) ;;;
  log (EWrite (jsonl_path username)) ;;;
  put_file (jsonl_path username) (jsonl_text data).

Definition initial_state : loop_state := {| records := []; consec_errors := 0 |}.

(** [main]: how the loop ended, the records accumulated, the final world. *)
Definition main (env : Env) (args : Args) (w : World)
    : loop_exit * list TweetRecord.t * World :=
  let '(tweets, ending) :=
    iter_user_tweets env (user args) (since args) (limit args) in
  let '(how, st, w1) := run_loop env args tweets ending initial_state w in
  match how with
  | Crashed _ => (how, records st, w1)
  | _ => (how, records st, snd (persist (user args) (records st) w1))
  end.

(* ===================================================================== *)
(** * Reading JSON back *)
(* ===================================================================== *)

(** The reference reader against which the two output files are compared:
    a JSON parser for the values above (RFC 8259 without fractions and
    booleans), and a reader of line-delimited JSON. *)
Module Reader.

Import Json.

Definition is_ws (c : ascii) : bool :=
  match c with
  | " "%char | "009"%char | "010"%char | "013"%char => true
  | _ => false
  end.

Fixpoint skip_ws (s : string) : string :=
  match s with
  | String c r => if is_ws c then skip_ws r else s
  | EmptyString => EmptyString
  end.

Definition is_digit (c : ascii) : bool :=
  match c with
  | "0"%char | "1"%char | "2"%char | "3"%char | "4"%char
  | "5"%char | "6"%char | "7"%char | "8"%char | "9"%char => true
  | _ => false
  end.

(** The longest prefix made of digits, and what follows it. *)
Fixpoint span_digits (s : string) : string * string :=
  match s with
  | String c r =>
      if is_digit c then
        let '(ds, rest) := span_digits r in (String c ds, rest)
      else (EmptyString, s)
  | EmptyString => (EmptyString, EmptyString)
  end.

(** An integer: an optional minus sign and at least one digit. *)
Definition read_int (s : string) : option (Z * string) :=
  let '(sign, body) :=
    match s with
    | String c r => if Ascii.eqb c "-" then ("-", r) else (EmptyString, s)
    | EmptyString => (EmptyString, s)
    end in
  let '(ds, rest) := span_digits body in
  match ds with
  | EmptyString => None
  | _ =>
      match NilEmpty.int_of_string (sign +:+ ds) with
      | Some d => Some (Z.of_int d, rest)
      | None => None
      end
  end.

(** The value of a hexadecimal digit, in either case. *)
Definition hex_value (c : ascii) : option N :=
  let n := N_of_ascii c in
  if ((48 <=? n) && (n <=? 57))%N then Some (n - 48)%N
  else if ((97 <=? n) && (n <=? 102))%N then Some (n - 87)%N
  else if ((65 <=? n) && (n <=? 70))%N then Some (n - 55)%N
  else None.

Definition push (c : ascii) (o : option (string * string)) : option (string * string) :=
  match o with
  | Some (s, rest) => Some (String c s, rest)
  | None => None
  end.

(** The characters of a string literal after its opening quote, decoded,
    and the text after the closing quote.  Code points above 255 have no
    counterpart in [string] and are refused. *)
Fixpoint read_string_body (s : string) : option (string * string) :=
  match s with
  | EmptyString => None
  | String c r =>
      if Ascii.eqb c quote then Some (EmptyString, r)
      else if Ascii.eqb c "\" then
        match r with
        | EmptyString => None
        | String e r' =>
            if Ascii.eqb e quote then push quote (read_string_body r')
            else if Ascii.eqb e "\" then push "\" (read_string_body r')
            else if Ascii.eqb e "/" then push "/" (read_string_body r')
            else if Ascii.eqb e "b" then push "008" (read_string_body r')
            else if Ascii.eqb e "f" then push "012" (read_string_body r')
            else if Ascii.eqb e "n" then push "010" (read_string_body r')
            else if Ascii.eqb e "r" then push "013" (read_string_body r')
            else if Ascii.eqb e "t" then push "009" (read_string_body r')
            else if Ascii.eqb e "u" then
              match r' with
              | String h1 (String h2 (String h3 (String h4 r''))) =>
                  match hex_value h1, hex_value h2, hex_value h3, hex_value h4 with
                  | Some 0%N, Some 0%N, Some a, Some b =>
                      push (ascii_of_N (16 * a + b)) (read_string_body r'')
                  | _, _, _, _ => None
                  end
              | _ => None
              end
            else None
        end
      else if (N_of_ascii c <? 32)%N then None
      else push c (read_string_body r)
  end.

(** The items of a non-empty array, up to and including the closing
    bracket; [rv] reads one value. *)
Fixpoint read_items (rv : string -> option (value * string)) (n : nat) (s : string)
    : option (list value * string) :=
  match n with
  | O => None
  | S n' =>
      match rv s with
      | None => None
      | Some (v, r1) =>
          match skip_ws r1 with
          | EmptyString => None
          | String c r2 =>
              if Ascii.eqb c "," then
                match read_items rv n' r2 with
                | Some (vs, rest) => Some (v :: vs, rest)
                | None => None
                end
              else if Ascii.eqb c "]" then Some ([v], r2)
              else None
          end
      end
  end.

(** The members of a non-empty object, up to and including the closing
    brace. *)
Fixpoint read_members (rv : string -> option (value * string)) (n : nat) (s : string)
    : option (list (string * value) * string) :=
  match n with
  | O => None
  | S n' =>
      match skip_ws s with
      | EmptyString => None
      | String q r0 =>
          if negb (Ascii.eqb q quote) then None
          else
            match read_string_body r0 with
            | None => None
            | Some (k, r1) =>
                match skip_ws r1 with
                | EmptyString => None
                | String colon r2 =>
                    if negb (Ascii.eqb colon ":") then None
                    else
                      match rv r2 with
                      | None => None
                      | Some (v, r3) =>
                          match skip_ws r3 with
                          | EmptyString => None
                          | String c r4 =>
                              if Ascii.eqb c "," then
                                match read_members rv n' r4 with
                                | Some (kvs, rest) => Some ((k, v) :: kvs, rest)
                                | None => None
                                end
                              else if Ascii.eqb c "}" then Some ([(k, v)], r4)
                              else None
                          end
                      end
                end
            end
      end
  end.

(** One value, after optional white space; [fuel] bounds the nesting depth
    and the number of items of an array or object. *)
Fixpoint read_value (fuel : nat) (s : string) : option (value * string) :=
  match fuel with
  | O => None
  | S f =>
      match skip_ws s with
      | EmptyString => None
      | String c r =>
          if is_digit c || Ascii.eqb c "-" then
            match read_int (String c r) with
            | Some (n, rest) => Some (Int n, rest)
            | None => None
            end
          else if Ascii.eqb c "n" then
            match Py.strip_prefix "ull" r with
            | Some rest => Some (Null, rest)
            | None => None
            end
          else if Ascii.eqb c quote then
            match read_string_body r with
            | Some (t, rest) => Some (Str t, rest)
            | None => None
            end
          else if Ascii.eqb c "[" then
            match skip_ws r with
            | EmptyString => None
            | String c' rest =>
                if Ascii.eqb c' "]" then Some (Arr [], rest)
                else
                  match read_items (read_value f) f r with
                  | Some (vs, rest') => Some (Arr vs, rest')
                  | None => None
                  end
            end
          else if Ascii.eqb c "{" then
            match skip_ws r with
            | EmptyString => None
            | String c' rest =>
                if Ascii.eqb c' "}" then Some (Obj [], rest)
                else
                  match read_members (read_value f) f r with
                  | Some (kvs, rest') => Some (Obj kvs, rest')
                  | None => None
                  end
            end
          else None
      end
  end.

(** A whole document: one value and nothing but white space after it.  The
    length of the text is fuel enough. *)
Definition parse (s : string) : option value :=
  match read_value (S (String.length s)) s with
  | Some (v, rest) =>
      match skip_ws rest with
      | EmptyString => Some v
      | _ => None
      end
  | None => None
  end.

Fixpoint parse_all (lines : list string) : option (list value) :=
  match lines with
  | [] => Some []
  | l :: more =>
      match parse l, parse_all more with
      | Some v, Some vs => Some (v :: vs)
      | _, _ => None
      end
  end.

(** Line-delimited JSON: the text is cut at line feeds, empty lines are
    skipped, every other line is one document. *)
Definition parse_lines (s : string) : option (list value) :=
  parse_all (filter (fun l => l <> EmptyString) (Py.split_on LF s)).

(** ** Notions used to show that the reader inverts the encoder *)

(** A measure of a value that bounds the fuel its text needs. *)
Fixpoint weight (v : value) : nat :=
  match v with
  | Arr vs =>
      S ((fix sum (l : list value) : nat :=
            match l with [] => O | x :: l' => S (weight x + sum l') end) vs)
  | Obj kvs =>
      S ((fix sum (l : list (string * value)) : nat :=
            match l with [] => O | (_, x) :: l' => S (weight x + sum l') end) kvs)
  | _ => 1%nat
  end.

(** The text is empty or begins with something that cannot continue a
    number. *)
Definition ends_number (rest : string) : bool :=
  match rest with
  | EmptyString => true
  | String c _ => negb (is_digit c)
  end.

Fixpoint all_ws (s : string) : bool :=
  match s with
  | EmptyString => true
  | String c r => is_ws c && all_ws r
  end.

Fixpoint all_digits (s : string) : bool :=
  match s with
  | EmptyString => true
  | String c r => is_digit c && all_digits r
  end.

(** The characters a JSON text can begin with. *)
Definition starts_value (c : ascii) : bool :=
  is_digit c || Ascii.eqb c "-" || Ascii.eqb c "n" || Ascii.eqb c quote
  || Ascii.eqb c "[" || Ascii.eqb c "{".

(** What the encoder writes after the first item of an array ... *)
Fixpoint items_tail (indent : option nat) (level : nat) (l : list value) : string :=
  match l with
  | [] => EmptyString
  | y :: l' =>
      item_separator indent +:+ newline_indent indent (S level) +:+
      encode indent (S level) y +:+ items_tail indent level l'
  end.

(** ... and after the first member of an object. *)
Fixpoint members_tail (indent : option nat) (level : nat) (l : list (string * value))
    : string :=
  match l with
  | [] => EmptyString
  | (k, y) :: l' =>
      item_separator indent +:+ newline_indent indent (S level) +:+
      encode_string k +:+ key_separator +:+
      encode indent (S level) y +:+ members_tail indent level l'
  end.

Fixpoint items_weight (l : list value) : nat :=
  match l with
  | [] => O
  | x :: l' => S (weight x + items_weight l')
  end.

Fixpoint members_weight (l : list (string * value)) : nat :=
  match l with
  | [] => O
  | (_, x) :: l' => S (weight x + members_weight l')
  end.

(** [rv] reads back the text of [v], whatever the indentation level, the
    white space before it and the text after it. *)
Definition reads (rv : string -> option (value * string)) (indent : option nat)
    (v : value) : Prop :=
  forall (lvl : nat) (pre rest : string),
    all_ws pre = true -> ends_number rest = true ->
    rv (pre +:+ encode indent lvl v +:+ rest) = Some (v, rest).

(** The character does not occur in the string. *)
Fixpoint lacks (c : ascii) (s : string) : bool :=
  match s with
  | EmptyString => true
  | String x r => negb (Ascii.eqb x c) && lacks c r
  end.

End Reader.

(* ===================================================================== *)
(** * Predicates used in the statements *)
(* ===================================================================== *)

(** No character of the string is in the forbidden class. *)
Fixpoint all_allowed (s : string) : bool :=
  match s with
  | EmptyString => true
  | String c r => negb (forbidden c) && all_allowed r
  end.

(** Every character of the string is in the forbidden class. *)
Fixpoint all_forbidden (s : string) : bool :=
  match s with
  | EmptyString => true
  | String c r => forbidden c && all_forbidden r
  end.

(** The string does not begin with a forbidden character. *)
Definition starts_allowed (s : string) : bool :=
  match s with
  | EmptyString => true
  | String c _ => negb (forbidden c)
  end.

(** The string does not end with a forbidden character. *)
Fixpoint ends_allowed (s : string) : bool :=
  match s with
  | EmptyString => true
  | String c EmptyString => negb (forbidden c)
  | String _ r => ends_allowed r
  end.

(** The regular-expression view of the scan: at a forbidden character a
    match starts, it swallows the whole run, and the scan resumes after
    it. *)
Fixpoint skip_run (s : string) : string :=
  match s with
  | EmptyString => EmptyString
  | String c r => if forbidden c then skip_run r else s
  end.

(** [r] is the record the script builds for post [t] in some world. *)
Definition built (env : Env) (args : Args) (r : TweetRecord.t) (t : Tweet.t) : Prop :=
  exists w w', build_record env args t w = (Ok r, w').

(** Every post of the list raises an exception other than Ctrl-C when the
    loop reaches it, starting in world [w], and the back-off sleep between
    two of them runs to its end; the result is the world right after the
    last of these failures. *)
Fixpoint failing_streak (env : Env) (args : Args) (ts : list Tweet.t) (w : World)
    : option World :=
  match ts with
  | [] => None
  | t :: ts' =>
      match build_record env args t w with
      | (Raise Exception, w1) =>
          match ts' with
          | [] => Some w1
          | _ :: _ =>
              match sleep env 1000 w1 with
              | (Ok _, w2) => failing_streak env args ts' w2
              | (Raise _, _) => None
              end
          end
      | _ => None
      end
  end.

(* ===================================================================== *)
(** * Concrete runs used as instances *)
(* ===================================================================== *)

Module Sample.

Definition empty_world : World := {| fs := ∅; trace := [] |}.

(** A post with text only. *)
Definition text_tweet (i : Z) : Tweet.t :=
  {| Tweet.id := i;
     Tweet.date := Val "2024-05-01T10:00:00+00:00";
     Tweet.rawContent := Val "hello";
     Tweet.replyCount := Val 3;
     Tweet.retweetCount := NoneVal;
     Tweet.likeCount := Missing;
     Tweet.quoteCount := Val 0;
     Tweet.viewCount := NoneVal;
     Tweet.media := NoneVal |}.

(** An item without a [date] attribute (snscrape also yields tombstones
    and references, which have an id and little else). *)
Definition broken_tweet (i : Z) : Tweet.t :=
  {| Tweet.id := i;
     Tweet.date := Missing;
     Tweet.rawContent := Missing;
     Tweet.replyCount := Missing;
     Tweet.retweetCount := Missing;
     Tweet.likeCount := Missing;
     Tweet.quoteCount := Missing;
     Tweet.viewCount := Missing;
     Tweet.media := Missing |}.

Definition media_tweet (i : Z) (ms : list Media) : Tweet.t :=
  {| Tweet.id := i;
     Tweet.date := Val "2024-05-02T08:30:00+00:00";
     Tweet.rawContent := Val "look";
     Tweet.replyCount := Val 1;
     Tweet.retweetCount := Val 2;
     Tweet.likeCount := Val 5;
     Tweet.quoteCount := Val 0;
     Tweet.viewCount := Val 40;
     Tweet.media := Val ms |}.

(** Collaborators that never interrupt: every request is answered with
    [status], yt-dlp finds nothing. *)
Definition quiet_env (items : list Tweet.t) (status : Z) : Env :=
  {| get_items := fun _ => (items, None);
     session_get := fun _ _ => Response status ["data"] None;
     extract_info := fun _ _ _ _ => {| yt_files := []; yt_result := Ok None |};
     sleep_interrupted := fun _ _ => false |}.

(** The same, with Ctrl-C arriving during the first courtesy pause. *)
Definition ctrl_c_in_pause_env (items : list Tweet.t) : Env :=
  {| get_items := fun _ => (items, None);
     session_get := fun _ _ => Response 404 [] None;
     extract_info := fun _ _ _ _ => {| yt_files := []; yt_result := Ok None |};
     sleep_interrupted := fun _ millis => millis =? 200 |}.

(** Ctrl-C arriving while an image is being requested. *)
Definition ctrl_c_in_get_env (items : list Tweet.t) : Env :=
  {| get_items := fun _ => (items, None);
     session_get := fun _ _ => GetRaises KeyboardInterrupt;
     extract_info := fun _ _ _ _ => {| yt_files := []; yt_result := Ok None |};
     sleep_interrupted := fun _ _ => false |}.

Definition args_of (lim budget : Z) : Args :=
  {| user := "u"; limit := lim; since := None; cookies := None;
     max_consec_errors := budget |}.

End Sample.

Module Runs.
Import Sample.

(** One good post, two broken ones, one more good post; budget 2. *)
Definition streak_items : list Tweet.t :=
  [text_tweet 1; broken_tweet 2; broken_tweet 3; text_tweet 4].
Definition streak_env : Env := quiet_env streak_items 200.
Definition streak_args : Args := args_of 0 2.

(** Three good posts, limit 2. *)
Definition limit_items : list Tweet.t := [text_tweet 1; text_tweet 2; text_tweet 3].
Definition limit_env : Env := quiet_env limit_items 200.
Definition limit_args : Args := args_of 2 50.

(** The same posts, a negative limit. *)
Definition negative_args : Args := args_of (-3) 50.

(** Two good posts, Ctrl-C during the pause after the first. *)
Definition pause_items : list Tweet.t := [text_tweet 1; text_tweet 2].
Definition pause_env : Env := ctrl_c_in_pause_env pause_items.
Definition pause_args : Args := args_of 0 50.

(** A good post, a broken one, a good one; Ctrl-C arrives during the
    back-off sleep that follows the failure. *)
Definition backoff_items : list Tweet.t :=
  [text_tweet 1; broken_tweet 2; text_tweet 3].
Definition backoff_env : Env :=
  {| get_items := fun _ => (backoff_items, None);
     session_get := fun _ _ => Response 404 [] None;
     extract_info := fun _ _ _ _ => {| yt_files := []; yt_result := Ok None |};
     sleep_interrupted := fun _ millis => millis =? 1000 |}.
Definition backoff_args : Args := args_of 0 50.

(** A good post, then a post with a photo whose download is interrupted. *)
Definition get_items_list : list Tweet.t :=
  [text_tweet 1;
   media_tweet 2 [Photo (Some "https://pbs.twimg.com/media/Fab.jpg") None];
   text_tweet 3].
Definition get_env : Env := ctrl_c_in_get_env get_items_list.

End Runs.

(* ===================================================================== *)
(** * Notions of the specification used to state the claims *)
(* ===================================================================== *)

(** The URLs requested with [session.get], oldest first. *)
Fixpoint gets (tr : list event) : list string :=
  match tr with
  | [] => []
  | EGet u :: rest => u :: gets rest
  | _ :: rest => gets rest
  end.

(** Text before the first occurrence of [c] (all of it when there is
    none). *)
Fixpoint before_first (c : ascii) (s : string) : string :=
  match s with
  | EmptyString => EmptyString
  | String x r => if Ascii.eqb x c then EmptyString else String x (before_first c r)
  end.

(** Text after the first occurrence of [c], if there is one. *)
Fixpoint after_first (c : ascii) (s : string) : option string :=
  match s with
  | EmptyString => None
  | String x r => if Ascii.eqb x c then Some r else after_first c r
  end.

(** The names of the query parameters of a URL, as RFC 3986 and the usual
    key=value convention have them: the query runs from the first question
    mark to the fragment, parameters are separated by ampersands, and a
    name ends at the first equals sign. *)
Definition query_param_names (url : string) : list string :=
  match after_first "?" (before_first "#" url) with
  | None => []
  | Some query => map (before_first "=") (Py.split_on "&" query)
  end.

Definition has_query_param (name url : string) : bool :=
  bool_decide (name ∈ query_param_names url).

(** Every file of [w] is still there in [w']. *)
Definition files_kept (w w' : World) : Prop :=
  forall p, is_Some (fs w !! p) -> is_Some (fs w' !! p).

(** A photo entry names a file that is on disk in world [w]. *)
Definition photo_on_disk (item : MediaItem.t) (w : World) : Prop :=
  MediaItem.type item = "photo" /\
  exists p, MediaItem.local_path item = Some p /\ is_Some (fs w !! p).

(** Where the path of a video or GIF entry comes from: the first file the
    skip check found in world [w], or, when it found none, what the
    yt-dlp helper returned. *)
Definition video_path_source (env : Env) (args : Args) (tweet : Tweet.t)
    (item : MediaItem.t) (w w' : World) : Prop :=
  let found := glob_id (videos_dir (user args)) (Py.str_of_int (Tweet.id tweet)) (fs w) in
  (MediaItem.type item = "video" \/ MediaItem.type item = "gif") /\
  exists p,
    MediaItem.local_path item = Some p /\
    (head found = Some p /\ is_Some (fs w !! p)
     \/
     found = [] /\
     download_video_with_ytdlp env (tweet_url_of (user args) tweet)
       (path_join (videos_dir (user args))
          (Py.str_of_int (Tweet.id tweet) +:+ "-%(id)s.%(ext)s"))
       (cookies args) w = (Ok (Some p), w')).

(** What holds of an entry appended for media object [m]. *)
Definition entry_justified (env : Env) (args : Args) (tweet : Tweet.t) (m : Media)
    (item : MediaItem.t) (w w' : World) : Prop :=
  match m with
  | Photo _ _ => photo_on_disk item w'
  | Video | Gif => video_path_source env args tweet item w w'
  | OtherMedia => False
  end.

Module Cases.
Import Sample.

(** A photo URL with a parameter called [filename] and none called
    [name]. *)
Definition odd_url : string := "https://pbs.twimg.com/media/F1.jpg?filename=a".
Definition plain_url : string := "https://pbs.twimg.com/media/F1.jpg".
Definition photo_dest : string := "downloads/u/images/5_F1.jpg".

(** yt-dlp reports a file name but leaves nothing on disk. *)
Definition guessing_env (items : list Tweet.t) : Env :=
  {| get_items := fun _ => (items, None);
     session_get := fun _ _ => Response 404 [] None;
     extract_info := fun _ _ _ _ =>
       {| yt_files := []; yt_result := Ok (Some "downloads/u/videos/9-abc.mp4") |};
     sleep_interrupted := fun _ _ => false |}.

Definition video_tweet : Tweet.t := media_tweet 9 [Video].
Definition photo_tweet : Tweet.t :=
  media_tweet 5 [Photo (Some plain_url) None; Photo None (Some odd_url)].

End Cases.

(* ===================================================================== *)
(** * Further notions, for the properties beyond the claims *)
(* ===================================================================== *)

(** The chunks of a response body, one after the other. *)
Fixpoint body_of (chunks : list string) : string :=
  match chunks with
  | [] => EmptyString
  | chunk :: more => chunk +:+ body_of more
  end.

(** The media object is a photo. *)
Definition is_photo (m : Media) : bool :=
  match m with Photo _ _ => true | _ => false end.

(** How many photos a list of media objects holds. *)
Fixpoint photo_count (ms : list Media) : nat :=
  match ms with
  | [] => O
  | m :: rest => ((if is_photo m then 1 else 0) + photo_count rest)%nat
  end.

(** The media objects the loop of [build_record] goes through. *)
Definition media_refs (tweet : Tweet.t) : list Media :=
  default [] (getattr (Tweet.media tweet)).

(** The file system is the same but for the file at [path]. *)
Definition same_but (path : string) (w w' : World) : Prop :=
  forall p, p <> path -> fs w' !! p = fs w !! p.

Module More.
Import Sample.

Definition photo_url : string := "https://pbs.twimg.com/media/Fab.jpg".
Definition photo_file : string := "downloads/u/images/7_Fab.jpg".
Definition one_photo : Tweet.t := media_tweet 7 [Photo (Some photo_url) None].
Definition two_videos : Tweet.t := media_tweet 9 [Video; Gif].

(** A world in which the photo of post 7 is already on disk. *)
Definition photo_present : World :=
  {| fs := {[ photo_file := "old bytes" ]}; trace := [] |}.

(** A world in which a video of post 9 is already on disk. *)
Definition video_present : World :=
  {| fs := {[ "downloads/u/videos/9-abc.mp4" := "old bytes" ]}; trace := [] |}.

(** The server sends two chunks and then the connection breaks. *)
Definition breaking_env : Env :=
  {| get_items := fun _ => ([one_photo], None);
     session_get := fun _ _ => Response 200 ["abc"; "de"] (Some Exception);
     extract_info := fun _ _ _ _ => {| yt_files := []; yt_result := Ok None |};
     sleep_interrupted := fun _ _ => false |}.

(** The scraper yields two posts and then fails. *)
Definition failing_source_env : Env :=
  {| get_items := fun _ => ([text_tweet 1; text_tweet 2], Some Exception);
     session_get := fun _ _ => Response 404 [] None;
     extract_info := fun _ _ _ _ => {| yt_files := []; yt_result := Ok None |};
     sleep_interrupted := fun _ _ => false |}.

End More.

(** The server always answers with a status and a complete body. *)
Definition server_answers (env : Env) : Prop :=
  forall (w : World) (url : string),
    exists code chunks, session_get env w url = Response code chunks None.

(** No yt-dlp session is cut short by Ctrl-C. *)
Definition ytdlp_uninterrupted (env : Env) : Prop :=
  forall (w : World) (tweet_url outtmpl : string) (cookiefile : option string),
    yt_result (extract_info env w tweet_url outtmpl cookiefile) <> Raise KeyboardInterrupt.

(** The path names a file directly inside [dir], whose name is not empty,
    has no forbidden character and is at most [maxlen] characters long. *)
Definition safely_inside (dir path : string) (maxlen : Z) : Prop :=
  exists fname,
    path = dir +:+ "/" +:+ fname /\
    fname <> EmptyString /\
    all_allowed fname = true /\
    Py.len fname <= maxlen.

(** The property of a photo entry that X12 is about. *)
Definition photo_inside_images (args : Args) (item : MediaItem.t) : Prop :=
  MediaItem.type item = "photo" ->
  exists p, MediaItem.local_path item = Some p /\
            safely_inside (images_dir (user args)) p default_maxlen.

(** The post has the two attributes [build_record] cannot do without. *)
Definition well_formed (tweet : Tweet.t) : Prop :=
  (exists d, Tweet.date tweet = Val d) /\ Tweet.rawContent tweet <> Missing.

(** No [time.sleep] is cut short by Ctrl-C. *)
Definition sleeps_uninterrupted (env : Env) : Prop :=
  forall (w : World) (millis : Z), sleep_interrupted env w millis = false.

(* ===================================================================== *)
(** * Loading the output files back into records *)
(* ===================================================================== *)

(** The reference loader of the two files: the text is parsed, and every
    object is turned back into a record, field by field (the fields of
    the two dataclasses, lines 42-59).  An object that lacks a field, or
    holds a value of another kind in it, is refused. *)
Module Load.

Definition int_field (key : string) (v : Json.value) : option Z :=
  match Json.field key v with
  | Some (Json.Int n) => Some n
  | _ => None
  end.

Definition str_field (key : string) (v : Json.value) : option string :=
  match Json.field key v with
  | Some (Json.Str s) => Some s
  | _ => None
  end.

Definition opt_int_field (key : string) (v : Json.value) : option (option Z) :=
  match Json.field key v with
  | Some (Json.Int n) => Some (Some n)
  | Some Json.Null => Some None
  | _ => None
  end.

Definition opt_str_field (key : string) (v : Json.value) : option (option string) :=
  match Json.field key v with
  | Some (Json.Str s) => Some (Some s)
  | Some Json.Null => Some None
  | _ => None
  end.

Fixpoint each {A} (f : Json.value -> option A) (l : list Json.value) : option (list A) :=
  match l with
  | [] => Some []
  | v :: more =>
      match f v, each f more with
      | Some a, Some rest => Some (a :: rest)
      | _, _ => None
      end
  end.

Definition media_item (v : Json.value) : option MediaItem.t :=
  match str_field "type" v, str_field "url" v, opt_str_field "local_path" v with
  | Some t, Some u, Some p =>
      Some {| MediaItem.type := t; MediaItem.url := u; MediaItem.local_path := p |}
  | _, _, _ => None
  end.

Definition media_field (v : Json.value) : option (list MediaItem.t) :=
  match Json.field "media" v with
  | Some (Json.Arr items) => each media_item items
  | _ => None
  end.

Definition record (v : Json.value) : option TweetRecord.t :=
  match int_field "id" v, str_field "url" v, str_field "date" v,
        str_field "content" v with
  | Some i, Some u, Some d, Some c =>
      match int_field "replyCount" v, int_field "retweetCount" v,
            int_field "likeCount" v, int_field "quoteCount" v with
      | Some rp, Some rt, Some lk, Some qt =>
          match opt_int_field "viewCount" v, media_field v with
          | Some vc, Some ms =>
              Some {| TweetRecord.id := i;
                      TweetRecord.url := u;
                      TweetRecord.date := d;
                      TweetRecord.content := c;
                      TweetRecord.replyCount := rp;
                      TweetRecord.retweetCount := rt;
                      TweetRecord.likeCount := lk;
                      TweetRecord.quoteCount := qt;
                      TweetRecord.viewCount := vc;
                      TweetRecord.media := ms |}
          | _, _ => None
          end
      | _, _, _, _ => None
      end
  | _, _, _, _ => None
  end.

(** The array-form file: one JSON array of record objects. *)
Definition array_file (text : string) : option (list TweetRecord.t) :=
  match Reader.parse text with
  | Some (Json.Arr objs) => each record objs
  | _ => None
  end.

(** The line-delimited file: one record object per line. *)
Definition lines_file (text : string) : option (list TweetRecord.t) :=
  match Reader.parse_lines text with
  | Some objs => each record objs
  | None => None
  end.

End Load.
(* ===================================================================== *)
(** * Worked examples *)
(* ===================================================================== *)

Example safe_filename_ex1 :
  safe_filename "12_a/b\\c: d.jpg?x=1" default_maxlen = "12_a_b_c_ d.jpg_x=1".
Proof. reflexivity. Qed.

Example safe_filename_ex2 : safe_filename "abcdef" 3 = "abc".
Proof. reflexivity. Qed.

Example safe_filename_ex3 : safe_filename "abc" (-1) = "ab".
Proof. reflexivity. Qed.

Example dumps_ex :
  Json.dumps (Json.Arr [Json.Int 7; Json.Null; Json.Arr []; Json.Int (-12)])
  = "[7, null, [], -12]".
Proof. reflexivity. Qed.

Example dump_indent2_ex :
  Json.dump_indent2 (Json.Arr [Json.Int 1; Json.Arr [Json.Int 2]])
  = "[" +:+ String Json.LF "  1," +:+ String Json.LF "  [" +:+
    String Json.LF "    2" +:+ String Json.LF "  ]" +:+ String Json.LF "]".
Proof. reflexivity. Qed.

Example encode_string_ex :
  Json.encode_string ("a\b" +:+ String Json.LF "c")
  = String Json.quote ("a\\b\nc" +:+ String Json.quote EmptyString).
Proof. reflexivity. Qed.

Example path_name_ex :
  path_name "https://pbs.twimg.com/media/Fab.jpg?format=jpg&name=large"
  = "Fab.jpg?format=jpg&name=large".
Proof. reflexivity. Qed.

Example glob_id_ex :
  glob_id "downloads/u/videos" "12"
    (<["downloads/u/videos/12-ab.mp4" := "x"]>
       (<["downloads/u/videos/123-cd.mp4" := "y"]>
          (<["downloads/u/videos/12-noext" := "z"]> (∅ : gmap string string))))
  = ["downloads/u/videos/12-ab.mp4"].
Proof. vm_compute. reflexivity. Qed.

(* ===================================================================== *)
(** * Facts about strings *)
(* ===================================================================== *)

Section StringFacts.

Lemma append_assoc (a b c : string) : (a +:+ b) +:+ c = a +:+ (b +:+ c).
Proof. induction a as [|x a IH]; simpl; [reflexivity | now rewrite IH]. Qed.

Lemma append_empty_r (a : string) : a +:+ EmptyString = a.
Proof. induction a as [|x a IH]; simpl; [reflexivity | now rewrite IH]. Qed.

Lemma length_append (a b : string) :
  String.length (a +:+ b) = (String.length a + String.length b)%nat.
Proof. induction a as [|x a IH]; simpl; [reflexivity | now rewrite IH]. Qed.

Lemma append_inv_head (a s t : string) : a +:+ s = a +:+ t -> s = t.
Proof. induction a as [|x a IH]; simpl; [auto | intros [= H]; auto]. Qed.

Lemma str_take_length (n : nat) (s : string) :
  String.length (Py.take n s) = Nat.min n (String.length s).
Proof.
  revert s; induction n as [|n IH]; intros [|c s]; simpl; auto.
Qed.

Lemma str_take_all (n : nat) (s : string) :
  (String.length s <= n)%nat -> Py.take n s = s.
Proof.
  revert s; induction n as [|n IH]; intros [|c s]; simpl; intros H;
    try reflexivity; try lia.
  f_equal. apply IH. lia.
Qed.

End StringFacts.

(* ===================================================================== *)
(** * The filename sanitizer *)
(* ===================================================================== *)

Section Sanitizer.

Lemma re_sub_from_allowed (b : bool) (s : string) :
  all_allowed (re_sub_from b s) = true.
Proof.
  revert b; induction s as [|c s IH]; intros b; simpl; [reflexivity|].
  destruct (forbidden c) eqn:Hc.
  - destruct b; simpl; auto.
  - simpl. rewrite Hc. simpl. auto.
Qed.

Lemma re_sub_from_length (b : bool) (s : string) :
  (String.length (re_sub_from b s) <= String.length s)%nat.
Proof.
  revert b; induction s as [|c s IH]; intros b; simpl; [lia|].
  pose proof (IH true). pose proof (IH false).
  destruct (forbidden c); [destruct b|]; simpl; lia.
Qed.

Lemma re_sub_from_id (b : bool) (s : string) :
  all_allowed s = true -> re_sub_from b s = s.
Proof.
  revert b; induction s as [|c s IH]; intros b; simpl; [reflexivity|].
  intros [Hc Hs]%andb_prop. apply negb_true_iff in Hc. rewrite Hc.
  f_equal. auto.
Qed.

Lemma take_allowed (n : nat) (s : string) :
  all_allowed s = true -> all_allowed (Py.take n s) = true.
Proof.
  revert s; induction n as [|n IH]; intros [|c s]; simpl; auto.
  intros [Hc Hs]%andb_prop. rewrite Hc. simpl. auto.
Qed.

Lemma re_sub_in_match (s : string) :
  re_sub_from true s = re_sub_from false (skip_run s).
Proof.
  induction s as [|c s IH]; simpl; [reflexivity|].
  destruct (forbidden c) eqn:Hc; simpl; [assumption | now rewrite Hc].
Qed.

Lemma re_sub_unfold (c : ascii) (s : string) :
  re_sub (String c s) =
  if forbidden c then String "_" (re_sub (skip_run s)) else String c (re_sub s).
Proof.
  unfold re_sub. simpl. destruct (forbidden c); [|reflexivity].
  now rewrite re_sub_in_match.
Qed.

Lemma re_sub_true_starts_allowed (s : string) :
  starts_allowed s = true -> re_sub_from true s = re_sub_from false s.
Proof.
  destruct s as [|c s]; simpl; [reflexivity|].
  intros Hc%negb_true_iff. now rewrite Hc.
Qed.

Lemma re_sub_run (r : string) (b : string) :
  r <> EmptyString -> all_forbidden r = true -> starts_allowed b = true ->
  re_sub_from false (r +:+ b) = String "_" (re_sub_from false b).
Proof.
  intros Hne Hr Hb.
  assert (Hin : forall r', all_forbidden r' = true ->
                 re_sub_from true (r' +:+ b) = re_sub_from false b).
  { induction r' as [|c r' IH]; simpl.
    - intros _. now apply re_sub_true_starts_allowed.
    - intros [Hc Hr']%andb_prop. rewrite Hc. auto. }
  destruct r as [|c r]; [congruence|]. simpl in *.
  apply andb_prop in Hr as [Hc Hr]. rewrite Hc. f_equal. auto.
Qed.

Lemma re_sub_from_append (a t : string) (b : bool) :
  a <> EmptyString -> ends_allowed a = true ->
  re_sub_from b (a +:+ t) = re_sub_from b a +:+ re_sub_from false t.
Proof.
  revert b; induction a as [|c a IH]; intros b Hne Ha; [congruence|].
  destruct a as [|d a].
  - simpl in *. apply negb_true_iff in Ha. now rewrite Ha.
  - assert (Hrec : forall b', re_sub_from b' (String d a +:+ t)
                    = re_sub_from b' (String d a) +:+ re_sub_from false t).
    { intros b'. apply IH; [congruence | exact Ha]. }
    change (String c (String d a) +:+ t) with (String c (String d a +:+ t)).
    cbn [re_sub_from]. cbn [re_sub_from] in Hrec.
    destruct (forbidden c); [destruct b|]; cbn [String.append];
      rewrite ?Hrec; reflexivity.
Qed.

Lemma re_sub_append (a t : string) :
  ends_allowed a = true ->
  re_sub (a +:+ t) = re_sub a +:+ re_sub t.
Proof.
  intros Ha. unfold re_sub. destruct a as [|c a]; [reflexivity|].
  now apply re_sub_from_append.
Qed.

(** A maximal run of forbidden characters becomes one underscore. *)
Lemma re_sub_maximal_run (a r b : string) :
  ends_allowed a = true -> r <> EmptyString -> all_forbidden r = true ->
  starts_allowed b = true ->
  re_sub (a +:+ r +:+ b) = re_sub a +:+ String "_" (re_sub b).
Proof.
  intros Ha Hne Hr Hb. rewrite re_sub_append by exact Ha.
  f_equal. now apply re_sub_run.
Qed.

End Sanitizer.

Section SanitizerSpec.

Lemma safe_filename_take (name : string) (maxlen : Z) :
  0 <= maxlen ->
  safe_filename name maxlen = Py.take (Z.to_nat maxlen) (re_sub name).
Proof.
  intros Hm. unfold safe_filename, Py.slice_to, Py.len.
  destruct (Z.gtb_spec (Z.of_nat (String.length (re_sub name))) maxlen) as [Hgt|Hle].
  - destruct (Z.ltb_spec maxlen 0); [lia | reflexivity].
  - symmetry. apply str_take_all. lia.
Qed.

End SanitizerSpec.

(** C5: the sanitizer is total, and for every input string and every
    maximum length (a length, so not negative; the script passes 150) the
    result has none of the forbidden characters and is at most the maximum
    long; it is the input with every maximal run of forbidden characters
    replaced by one underscore, cut to the maximum length; a name free of
    forbidden characters is cut to the maximum length and otherwise left
    alone, so that on such a name no longer than the maximum the sanitizer
    is the identity. *)
Theorem C5_safe_filename_spec (name : string) (maxlen : Z) :
  0 <= maxlen ->
  all_allowed (safe_filename name maxlen) = true /\
  Py.len (safe_filename name maxlen) <= maxlen /\
  (forall a r b : string,
      name = a +:+ r +:+ b ->
      ends_allowed a = true -> r <> EmptyString -> all_forbidden r = true ->
      starts_allowed b = true ->
      safe_filename name maxlen
      = Py.take (Z.to_nat maxlen) (re_sub a +:+ String "_" (re_sub b))) /\
  (all_allowed name = true -> Py.len name <= maxlen ->
   safe_filename name maxlen = name) /\
  (forall a r b : string,
      name = a +:+ r +:+ b ->
      ends_allowed a = true -> r <> EmptyString -> all_forbidden r = true ->
      starts_allowed b = true ->
      safe_filename name maxlen
      = Py.take (Z.to_nat maxlen)
          (safe_filename a (Py.len a) +:+ String "_" (safe_filename b (Py.len b)))) /\
  (all_allowed name = true ->
   safe_filename name maxlen = Py.take (Z.to_nat maxlen) name) /\
  Py.len (safe_filename name maxlen)
  = Z.min maxlen (Py.len (safe_filename name (Py.len name))).
Proof.
  intros Hm.
  assert (Hfull : forall s, safe_filename s (Py.len s) = re_sub s).
  { intros s. rewrite safe_filename_take by (unfold Py.len; lia).
    apply str_take_all. pose proof (re_sub_from_length false s) as Hl.
    fold (re_sub s) in Hl. unfold Py.len. lia. }
  rewrite !Hfull, safe_filename_take by exact Hm.
  split; [|split; [|split; [|split; [|split; [|split]]]]].
  - apply take_allowed, re_sub_from_allowed.
  - unfold Py.len. rewrite str_take_length. lia.
  - intros a r b -> Ha Hne Hr Hb. now rewrite re_sub_maximal_run.
  - intros Hall Hlen. unfold re_sub. rewrite re_sub_from_id by exact Hall.
    apply str_take_all. unfold Py.len in Hlen. lia.
  - intros a r b -> Ha Hne Hr Hb. now rewrite !Hfull, re_sub_maximal_run.
  - intros Hall. unfold re_sub. now rewrite re_sub_from_id by exact Hall.
  - unfold Py.len. rewrite str_take_length. lia.
Qed.

Lemma C5_safe_filename_witness :
  0 <= 10 /\
  all_allowed (safe_filename "9_a/:b.jpg?x" 10) = true /\
  Py.len (safe_filename "9_a/:b.jpg?x" 10) <= 10 /\
  safe_filename "9_a/:b.jpg?x" 10 = "9_a_b.jpg_" /\
  (0 <= 3 /\ safe_filename "abcdef" 3 = "abc").
Proof.
  split; [lia|].
  destruct (C5_safe_filename_spec "9_a/:b.jpg?x" 10) as (H1 & H2 & _ & _ & H5 & _);
    [lia|].
  split; [exact H1|]. split; [exact H2|]. split.
  - rewrite (H5 "9_a" "/:" "b.jpg?x"); first [reflexivity | discriminate].
  - split; [lia|].
    destruct (C5_safe_filename_spec "abcdef" 3) as (_ & _ & _ & _ & _ & H6 & _); [lia|].
    rewrite H6; reflexivity.
Defined.

(* ===================================================================== *)
(** * The monad, the output paths and the persistence step *)
(* ===================================================================== *)

Section Basics.

Lemma bind_Ok_inv {A B} (c : M A) (k : A -> M B) (w w' : World) (b : B) :
  bind c k w = (Ok b, w') ->
  exists a w1, c w = (Ok a, w1) /\ k a w1 = (Ok b, w').
Proof.
  unfold bind. destruct (c w) as [[a|e] w1]; [eauto | discriminate].
Qed.

Lemma bind_Ok {A B} (c : M A) (k : A -> M B) (w w1 : World) (a : A) :
  c w = (Ok a, w1) -> bind c k w = k a w1.
Proof. unfold bind. now intros ->. Qed.

Lemma json_paths_differ (username : string) :
  json_path username <> jsonl_path username.
Proof.
  unfold json_path, jsonl_path.
  assert (Hsuf : username +:+ ".json" <> username +:+ ".jsonl").
  { intros H%append_inv_head. discriminate. }
  destruct username as [|c u]; [vm_compute; discriminate|].
  unfold path_join. cbn [String.append].
  destruct (Ascii.eqb c "/"); [exact Hsuf|].
  intros H%append_inv_head. cbn [String.append] in H.
  injection H as H. apply Hsuf. cbn [String.append]. now f_equal.
Qed.

Lemma persist_world (username : string) (recs : list TweetRecord.t) (w : World) :
  persist username recs w =
  (Ok tt,
   {| fs := <[jsonl_path username := jsonl_text (out_data recs)]>
              (<[json_path username := Json.dump_indent2 (Json.Arr (out_data recs))]> (fs w));
      trace := trace w ++ [EWrite (json_path username); EWrite (jsonl_path username)] |}).
Proof.
  unfold persist, bind, log, put_file. simpl. now rewrite <- app_assoc.
Qed.

Lemma persist_files (username : string) (recs : list TweetRecord.t) (w : World) :
  let w' := snd (persist username recs w) in
  fs w' !! json_path username = Some (Json.dump_indent2 (Json.Arr (out_data recs))) /\
  fs w' !! jsonl_path username = Some (jsonl_text (out_data recs)) /\
  trace w' = trace w ++ [EWrite (json_path username); EWrite (jsonl_path username)].
Proof.
  rewrite persist_world. simpl. repeat split.
  - rewrite lookup_insert_ne by (intros H; symmetry in H; now apply json_paths_differ in H).
    apply lookup_insert_eq.
  - apply lookup_insert_eq.
Qed.

Lemma main_unfold (env : Env) (args : Args) (w w1 : World)
    (tweets : list Tweet.t) (ending : option exn) (how : loop_exit) (st : loop_state) :
  iter_user_tweets env (user args) (since args) (limit args) = (tweets, ending) ->
  run_loop env args tweets ending initial_state w = (how, st, w1) ->
  main env args w =
  (how, records st,
   match how with
   | Crashed _ => w1
   | _ => snd (persist (user args) (records st) w1)
   end).
Proof.
  intros Hit Hrun. unfold main. rewrite Hit, Hrun. now destruct how.
Qed.

End Basics.

(* ===================================================================== *)
(** * The post iterator *)
(* ===================================================================== *)

Section Iterator.

Lemma iter_from_unbounded (count : Z) (items : list Tweet.t) (ending : option exn) :
  iter_from 0 count items ending = (items, ending).
Proof.
  revert count; induction items as [|t items IH]; intros count; simpl; [reflexivity|].
  now rewrite IH.
Qed.

Lemma iter_from_bounded (lim count : Z) (items : list Tweet.t) (ending : option exn) :
  0 < lim -> 0 <= count ->
  fst (iter_from lim count items ending) = take (Z.to_nat (lim - count)) items.
Proof.
  intros Hlim. revert count; induction items as [|t items IH]; intros count Hc; simpl.
  - now rewrite take_nil.
  - destruct (Z.eqb_spec lim 0) as [|_]; [lia|]. simpl.
    destruct (Z.geb_spec count lim) as [Hge|Hlt].
    + simpl. replace (Z.to_nat (lim - count)) with 0%nat by lia. reflexivity.
    + specialize (IH (count + 1) ltac:(lia)).
      destruct (iter_from lim (count + 1) items ending) as [more e]. simpl in *.
      replace (Z.to_nat (lim - count)) with (S (Z.to_nat (lim - (count + 1)))) by lia.
      simpl. now rewrite IH.
Qed.

Lemma iter_from_negative (lim : Z) (items : list Tweet.t) (ending : option exn) :
  lim < 0 ->
  iter_from lim 0 items ending =
  match items with [] => ([], ending) | _ :: _ => ([], None) end.
Proof.
  intros Hlim. destruct items as [|t items]; simpl; [reflexivity|].
  destruct (Z.eqb_spec lim 0) as [|_]; [lia|]. simpl.
  destruct (Z.geb_spec 0 lim); [reflexivity | lia].
Qed.

End Iterator.

(* ===================================================================== *)
(** * The run loop *)
(* ===================================================================== *)

Section Loop.

Context (env : Env) (args : Args).

Lemma try_block_cases (t : Tweet.t) (st : loop_state) (w : World) :
  (exists e w1, build_record env args t w = (Raise e, w1) /\
                try_block env args t st w = (Raise e, st, w1)) \/
  (exists rec w1, build_record env args t w = (Ok rec, w1) /\
     let st1 := {| records := records st ++ [rec]; consec_errors := 0 |} in
     (try_block env args t st w = (Ok tt, st1, snd (sleep env 200 w1)) /\
      sleep env 200 w1 = (Ok tt, snd (sleep env 200 w1)) \/
      try_block env args t st w = (Raise KeyboardInterrupt, st1, snd (sleep env 200 w1)) /\
      sleep env 200 w1 = (Raise KeyboardInterrupt, snd (sleep env 200 w1)))).
Proof.
  unfold try_block.
  destruct (build_record env args t w) as [[rec|e] w1] eqn:Hb.
  - right. exists rec, w1. split; [reflexivity|]. simpl.
    unfold sleep. destruct (sleep_interrupted env w1 200); simpl; auto.
  - left. eauto.
Qed.

(** The records only grow, and what is added was built from posts of the
    list, in their order. *)
Lemma run_loop_built (tweets : list Tweet.t) (ending : option exn)
    (st st' : loop_state) (w w' : World) (how : loop_exit) :
  run_loop env args tweets ending st w = (how, st', w') ->
  exists new ts,
    records st' = records st ++ new /\
    sublist ts tweets /\
    Forall2 (built env args) new ts.
Proof.
  revert st w; induction tweets as [|t tweets IH]; intros st w; simpl.
  - intros [= _ <- _]. exists [], []. rewrite app_nil_r. repeat split; constructor.
  - destruct (try_block_cases t st w) as
      [(e & w1 & Hb & Ht) | (rec & w1 & Hb & [[Ht Hs] | [Ht Hs]])]; rewrite Ht.
    + destruct e.
      * intros [= _ <- _]. exists [], []. rewrite app_nil_r.
        repeat split; [apply sublist_nil_l | constructor].
      * simpl. destruct (_ >=? _).
        { intros [= _ <- _]. exists [], []. simpl. rewrite app_nil_r.
          repeat split; [apply sublist_nil_l | constructor]. }
        destruct (sleep env 1000 w1) as [[[]|e] w2].
        { intros H. apply IH in H as (new & ts & Hr & Hsub & Hall). simpl in Hr.
          exists new, ts. repeat split; [exact Hr | now apply sublist_cons | exact Hall]. }
        { intros [= _ <- _]. exists [], []. simpl. rewrite app_nil_r.
          repeat split; [apply sublist_nil_l | constructor]. }
    + intros H. apply IH in H as (new & ts & Hr & Hsub & Hall). simpl in Hr.
      exists (rec :: new), (t :: ts). repeat split.
      * rewrite Hr, <- app_assoc. reflexivity.
      * now apply sublist_skip.
      * constructor; [now exists w, w1 | exact Hall].
    + intros [= _ <- _]. exists [rec], [t]. simpl. repeat split.
      * apply sublist_skip, sublist_nil_l.
      * constructor; [now exists w, w1 | constructor].
Qed.

(** A prefix of the posts that lets the loop go on can be run first. *)
Lemma run_loop_app (pre rest : list Tweet.t) (ending : option exn)
    (st st1 : loop_state) (w w1 : World) :
  run_loop env args pre None st w = (Exhausted, st1, w1) ->
  run_loop env args (pre ++ rest) ending st w = run_loop env args rest ending st1 w1.
Proof.
  revert st w; induction pre as [|t pre IH]; intros st w; simpl.
  - now intros [= <- <-].
  - destruct (try_block env args t st w) as [[[[]|[]] st2] w2]; try discriminate.
    + apply IH.
    + destruct (_ >=? _); [discriminate|].
      destruct (sleep env 1000 w2) as [[[]|e] w3]; [apply IH | discriminate].
Qed.

End Loop.

(* ===================================================================== *)
(** * Properties of a run *)
(* ===================================================================== *)

Section Streak.

Context (env : Env) (args : Args).

Lemma run_loop_streak (streak rest : list Tweet.t) (ending : option exn)
    (st : loop_state) (w w2 : World) :
  failing_streak env args streak w = Some w2 ->
  consec_errors st + Z.of_nat (length streak) = max_consec_errors args ->
  run_loop env args (streak ++ rest) ending st w =
  (TooManyErrors,
   {| records := records st; consec_errors := max_consec_errors args |}, w2).
Proof.
  revert st w; induction streak as [|t ts IH]; intros st w; [discriminate|].
  cbn [failing_streak app run_loop]. unfold try_block.
  destruct (build_record env args t w) as [[rec|[]] w1]; try discriminate.
  destruct ts as [|t' ts].
  - intros [= <-] Hk. cbn [length] in Hk. cbn [records consec_errors].
    replace (consec_errors st + 1) with (max_consec_errors args) by lia.
    destruct (Z.geb_spec (max_consec_errors args) (max_consec_errors args)); [reflexivity | lia].
  - intros Hs Hk. cbn [records consec_errors].
    assert (Hlen : Z.of_nat (length (t :: t' :: ts)) = 2 + Z.of_nat (length ts)).
    { cbn [length]. lia. }
    destruct (Z.geb_spec (consec_errors st + 1) (max_consec_errors args)); [lia|].
    destruct (sleep env 1000 w1) as [[[]|e] w3]; [|discriminate].
    rewrite (IH _ _ Hs); [reflexivity|]. cbn [consec_errors]. cbn [length] in *. lia.
Qed.

End Streak.

(** Whenever the loop ends because the iterator is exhausted (no more
    posts, or the count limit), because of Ctrl-C caught inside the [try],
    or because the error budget is used up, [main] goes on to write both
    files, with the records accumulated so far. *)
Lemma handled_exits_persist (env : Env) (args : Args) (w w' : World)
    (how : loop_exit) (recs : list TweetRecord.t) :
  main env args w = (how, recs, w') ->
  how = Exhausted \/ how = Interrupted \/ how = TooManyErrors ->
  exists (st : loop_state) (w1 : World),
    run_loop env args
      (fst (iter_user_tweets env (user args) (since args) (limit args)))
      (snd (iter_user_tweets env (user args) (since args) (limit args)))
      initial_state w = (how, st, w1) /\
    recs = records st /\
    trace w' = trace w1 ++ [EWrite (json_path (user args)); EWrite (jsonl_path (user args))] /\
    fs w' !! json_path (user args) = Some (Json.dump_indent2 (Json.Arr (out_data recs))) /\
    fs w' !! jsonl_path (user args) = Some (jsonl_text (out_data recs)).
Proof.
  intros Hmain Hhow.
  destruct (iter_user_tweets env (user args) (since args) (limit args))
    as [tweets ending] eqn:Hit.
  destruct (run_loop env args tweets ending initial_state w) as [[how0 st] w1] eqn:Hrun.
  rewrite (main_unfold env args w w1 _ _ _ _ Hit Hrun) in Hmain.
  injection Hmain as <- <- <-.
  exists st, w1. cbn [fst snd].
  destruct (persist_files (user args) (records st) w1) as (Hj & Hl & Ht).
  destruct Hhow as [-> | [-> | ->]]; repeat split; assumption.
Qed.

(** C2 (the code falls short of it): the [KeyboardInterrupt] handler
    covers the body of the [try] only.  In the run below post 2 raises an
    exception, and Ctrl-C arrives during the back-off sleep of the
    [Exception] handler: the interrupt leaves [main], the record of post 1
    is lost and neither output file is written. *)
Theorem C2_interrupt_in_backoff_skips_persistence :
  fst (main Runs.backoff_env Runs.backoff_args Sample.empty_world)
    = (Crashed KeyboardInterrupt,
       records (snd (fst (run_loop Runs.backoff_env Runs.backoff_args
                            [Sample.text_tweet 1] None initial_state Sample.empty_world)))) /\
  map TweetRecord.id
    (snd (fst (main Runs.backoff_env Runs.backoff_args Sample.empty_world))) = [1] /\
  trace (snd (main Runs.backoff_env Runs.backoff_args Sample.empty_world))
    = [ESleep 200; ESleep 1000] /\
  fs (snd (main Runs.backoff_env Runs.backoff_args Sample.empty_world)) !! json_path "u"
    = None /\
  fs (snd (main Runs.backoff_env Runs.backoff_args Sample.empty_world)) !! jsonl_path "u"
    = None.
Proof. vm_compute. repeat split. Qed.

(** C3 (amended): when Ctrl-C is raised inside the [try] of post M, the
    loop stops at once without a crash and both files are written from the
    accumulated records.  If it is raised before the record of post M is
    appended, these are exactly the records accumulated for posts 1..M-1
    and the partial record of M is dropped; if it is raised during the
    pause that follows the append, the record of M is included as well. *)
Theorem C3_interrupt_keeps_progress (env : Env) (args : Args)
    (pre rest : list Tweet.t) (t : Tweet.t) (ending : option exn)
    (w0 w1 w2 : World) (st1 st2 : loop_state) :
  iter_user_tweets env (user args) (since args) (limit args)
    = (pre ++ t :: rest, ending) ->
  run_loop env args pre None initial_state w0 = (Exhausted, st1, w1) ->
  try_block env args t st1 w1 = (Raise KeyboardInterrupt, st2, w2) ->
  exists w',
    main env args w0 = (Interrupted, records st2, w') /\
    trace w' = trace w2 ++ [EWrite (json_path (user args)); EWrite (jsonl_path (user args))] /\
    fs w' !! json_path (user args)
      = Some (Json.dump_indent2 (Json.Arr (out_data (records st2)))) /\
    fs w' !! jsonl_path (user args) = Some (jsonl_text (out_data (records st2))) /\
    (exists ts, sublist ts pre /\ Forall2 (built env args) (records st1) ts) /\
    (build_record env args t w1 = (Raise KeyboardInterrupt, w2) /\
     records st2 = records st1
     \/
     exists rec w1',
       build_record env args t w1 = (Ok rec, w1') /\
       sleep env 200 w1' = (Raise KeyboardInterrupt, w2) /\
       records st2 = records st1 ++ [rec]).
Proof.
  intros Hit Hpre Htry.
  exists (snd (persist (user args) (records st2) w2)).
  assert (Hrun : run_loop env args (pre ++ t :: rest) ending initial_state w0
                 = (Interrupted, st2, w2)).
  { rewrite (run_loop_app env args pre _ ending _ _ _ _ Hpre).
    cbn [run_loop]. now rewrite Htry. }
  rewrite (main_unfold env args w0 w2 _ _ _ _ Hit Hrun).
  destruct (persist_files (user args) (records st2) w2) as (Hj & Hl & Ht).
  repeat split; try assumption.
  - destruct (run_loop_built env args _ _ _ _ _ _ _ Hpre) as (new & ts & Hr & Hsub & Hall).
    exists ts. simpl in Hr. subst new. auto.
  - destruct (try_block_cases env args t st1 w1) as
      [(e & w3 & Hb & Ht') | (rec & w3 & Hb & [[Ht' Hs] | [Ht' Hs]])];
      rewrite Ht' in Htry.
    + injection Htry as -> <- <-. left. auto.
    + discriminate.
    + injection Htry as <- <-. right. exists rec, w3. cbn [records]. auto.
Qed.

Lemma C3_interrupt_keeps_progress_witness :
  exists w',
    main Runs.get_env Runs.pause_args Sample.empty_world
      = (Interrupted,
         records (snd (fst (run_loop Runs.get_env Runs.pause_args
                              [Sample.text_tweet 1] None initial_state Sample.empty_world))),
         w') /\
    map TweetRecord.id
      (records (snd (fst (run_loop Runs.get_env Runs.pause_args
                            [Sample.text_tweet 1] None initial_state Sample.empty_world))))
      = [1].
Proof.
  pose (pre := [Sample.text_tweet 1]).
  pose (t := Sample.media_tweet 2 [Photo (Some "https://pbs.twimg.com/media/Fab.jpg") None]).
  pose (loop1 := run_loop Runs.get_env Runs.pause_args pre None
                   initial_state Sample.empty_world).
  pose (step := try_block Runs.get_env Runs.pause_args t (snd (fst loop1)) (snd loop1)).
  destruct (C3_interrupt_keeps_progress Runs.get_env Runs.pause_args
              pre [Sample.text_tweet 3] t None
              Sample.empty_world (snd loop1) (snd step) (snd (fst loop1)) (snd (fst step)))
    as (w' & Hmain & _).
  - reflexivity.
  - reflexivity.
  - reflexivity.
  - exists w'. split; [exact Hmain | reflexivity].
Defined.

(** C3 as stated fails: Ctrl-C during the pause of post 1 is raised inside
    the [try] of post 1, and the output holds the record of post 1. *)
Lemma C3_counterexample :
  fst (fst (try_block Runs.pause_env Runs.pause_args (Sample.text_tweet 1)
              initial_state Sample.empty_world)) = Raise KeyboardInterrupt /\
  fst (fst (main Runs.pause_env Runs.pause_args Sample.empty_world)) = Interrupted /\
  map TweetRecord.id (snd (fst (main Runs.pause_env Runs.pause_args Sample.empty_world)))
    = [1] /\
  snd (fst (main Runs.pause_env Runs.pause_args Sample.empty_world)) <> [].
Proof. vm_compute. repeat split; discriminate. Qed.

Section Limit.

Lemma main_records_built (env : Env) (args : Args) (w : World) :
  exists ts,
    sublist ts (fst (iter_user_tweets env (user args) (since args) (limit args))) /\
    Forall2 (built env args) (snd (fst (main env args w))) ts.
Proof.
  destruct (iter_user_tweets env (user args) (since args) (limit args))
    as [tweets ending] eqn:Hit.
  destruct (run_loop env args tweets ending initial_state w) as [[how st] w1] eqn:Hrun.
  rewrite (main_unfold env args w w1 _ _ _ _ Hit Hrun). cbn [fst snd].
  destruct (run_loop_built env args _ _ _ _ _ _ _ Hrun) as (new & ts & Hr & Hsub & Hall).
  simpl in Hr. subst new. eauto.
Qed.

End Limit.

(** C6: with a limit N >= 1 the iterator yields the first N posts of the
    source, the output has at most N records, and the records were built
    from posts among these first N, in yield order; with limit 0 the
    iterator yields every post of the source. *)
Theorem C6_limit_bounds_output (env : Env) (args : Args) (w : World) :
  0 <= limit args ->
  let source := fst (get_items env (build_query (user args) (since args))) in
  let first_n :=
    if limit args =? 0 then source else take (Z.to_nat (limit args)) source in
  fst (iter_user_tweets env (user args) (since args) (limit args)) = first_n /\
  (exists ts, sublist ts first_n /\
              Forall2 (built env args) (snd (fst (main env args w))) ts) /\
  (1 <= limit args ->
   Z.of_nat (length (snd (fst (main env args w)))) <= limit args).
Proof.
  intros Hlim source first_n.
  assert (Hyield : fst (iter_user_tweets env (user args) (since args) (limit args))
                   = first_n).
  { unfold iter_user_tweets, first_n, source.
    destruct (get_items env (build_query (user args) (since args))) as [items ending].
    cbn [fst]. destruct (Z.eqb_spec (limit args) 0) as [->|Hne].
    - now rewrite iter_from_unbounded.
    - rewrite iter_from_bounded by lia. now rewrite Z.sub_0_r. }
  destruct (main_records_built env args w) as (ts & Hsub & Hall).
  rewrite Hyield in Hsub.
  split; [exact Hyield|]. split; [eauto|].
  intros Hpos. apply Forall2_length in Hall. apply sublist_length in Hsub.
  rewrite Hall. unfold first_n in Hsub.
  destruct (Z.eqb_spec (limit args) 0) as [|_]; [lia|].
  rewrite length_take in Hsub. lia.
Qed.

Lemma C6_limit_bounds_output_witness :
  0 <= limit Runs.limit_args /\
  fst (iter_user_tweets Runs.limit_env "u" None 2)
    = [Sample.text_tweet 1; Sample.text_tweet 2] /\
  Z.of_nat (length (snd (fst (main Runs.limit_env Runs.limit_args Sample.empty_world))))
    <= 2.
Proof.
  split; [vm_compute; discriminate|].
  destruct (C6_limit_bounds_output Runs.limit_env Runs.limit_args Sample.empty_world)
    as (Hy & _ & Hlen).
  - vm_compute. discriminate.
  - split; [exact Hy|]. apply Hlen. vm_compute. discriminate.
Defined.

(** C10: with a negative limit the iterator yields no post, no post is
    processed and no record is accumulated; unless the scraper itself
    fails before its first item, both files are written and hold no
    record. *)
Theorem C10_negative_limit_yields_nothing (env : Env) (args : Args) (w : World) :
  limit args < 0 ->
  fst (iter_user_tweets env (user args) (since args) (limit args)) = [] /\
  exists how w',
    main env args w = (how, [], w') /\
    (how = Exhausted /\
     trace w' = trace w ++ [EWrite (json_path (user args)); EWrite (jsonl_path (user args))] /\
     fs w' !! json_path (user args) = Some "[]" /\
     fs w' !! jsonl_path (user args) = Some EmptyString
     \/
     exists e, how = Crashed e /\ w' = w /\
               get_items env (build_query (user args) (since args)) = ([], Some e)).
Proof.
  intros Hneg.
  assert (Hit : iter_user_tweets env (user args) (since args) (limit args)
                = ([], match get_items env (build_query (user args) (since args)) with
                       | ([], e) => e
                       | _ => None
                       end)).
  { unfold iter_user_tweets.
    destruct (get_items env (build_query (user args) (since args))) as [items ending].
    rewrite iter_from_negative by exact Hneg. now destruct items. }
  split; [now rewrite Hit|].
  destruct (get_items env (build_query (user args) (since args)))
    as [[|t items] [e|]] eqn:Hsrc.
  2,3,4: exists Exhausted, (snd (persist (user args) [] w)); split;
    [ now rewrite (main_unfold env args w w _ _ Exhausted initial_state Hit eq_refl)
    | left; destruct (persist_files (user args) [] w) as (Hj & Hl & Ht);
      repeat split; assumption ].
  exists (Crashed e), w. split.
  - now rewrite (main_unfold env args w w _ _ (Crashed e) initial_state Hit eq_refl).
  - right. exists e. auto.
Qed.

Lemma C10_negative_limit_witness :
  limit Runs.negative_args < 0 /\
  fst (iter_user_tweets Runs.limit_env "u" None (-3)) = [] /\
  snd (fst (main Runs.limit_env Runs.negative_args Sample.empty_world)) = [].
Proof.
  split; [reflexivity|].
  destruct (C10_negative_limit_yields_nothing Runs.limit_env Runs.negative_args
              Sample.empty_world) as (Hy & how & w' & Hmain & _).
  - reflexivity.
  - split; [exact Hy|]. now rewrite Hmain.
Defined.

(* ===================================================================== *)
(** * Downloads *)
(* ===================================================================== *)

Section Downloads.

Context (env : Env).

Lemma gets_app (a b : list event) : gets (a ++ b) = gets a ++ gets b.
Proof.
  induction a as [|e a IH]; simpl; [reflexivity|].
  destruct e; simpl; now rewrite IH.
Qed.

Lemma write_chunks_trace (dest acc : string) (chunks : list string)
    (broken : option exn) (w : World) :
  trace (snd (write_chunks dest acc chunks broken w)) = trace w.
Proof.
  revert acc w; induction chunks as [|c chunks IH]; intros acc w; simpl.
  - now destruct broken.
  - unfold bind, put_file. simpl. now rewrite IH.
Qed.

Lemma write_chunks_kept (dest acc : string) (chunks : list string)
    (broken : option exn) (w : World) :
  files_kept w (snd (write_chunks dest acc chunks broken w)).
Proof.
  revert acc w; induction chunks as [|c chunks IH]; intros acc w p Hp; simpl.
  - now destruct broken.
  - unfold bind, put_file. simpl. apply IH. simpl.
    rewrite lookup_insert. case_decide; [eauto | exact Hp].
Qed.

Lemma download_image_gets (url dest : string) (w : World) :
  gets (trace (snd (download_image env url dest w))) = gets (trace w) ++ [url].
Proof.
  unfold download_image, bind, log, put_file, raise, ret. simpl.
  destruct (session_get env w url) as [code chunks broken|e]; simpl.
  - destruct (code =? 200); simpl.
    + match goal with
      | |- context [write_chunks ?d ?a ?c ?b ?w0] =>
          pose proof (write_chunks_trace d a c b w0) as Ht;
          destruct (write_chunks d a c b w0) as [[[]|e] w1]
      end; simpl in *; rewrite Ht, !gets_app; simpl; now rewrite <- app_assoc, app_nil_r.
    + now rewrite gets_app.
  - now rewrite gets_app.
Qed.

Lemma download_image_kept (url dest : string) (w : World) :
  files_kept w (snd (download_image env url dest w)).
Proof.
  intros p Hp. unfold download_image, bind, log, put_file, raise, ret. simpl.
  destruct (session_get env w url) as [code chunks broken|e]; simpl; [|exact Hp].
  destruct (code =? 200); simpl; [|exact Hp].
  match goal with
  | |- context [write_chunks ?d ?a ?c ?b ?w0] =>
      pose proof (write_chunks_kept d a c b w0 p) as Hk;
      destruct (write_chunks d a c b w0) as [[[]|e] w1]
  end; simpl in *; apply Hk; rewrite lookup_insert; case_decide; eauto.
Qed.

Lemma download_image_refused (url dest : string) (w : World)
    (code : Z) (chunks : list string) (broken : option exn) :
  session_get env w url = Response code chunks broken -> code <> 200 ->
  download_image env url dest w
  = (Ok false, {| fs := fs w; trace := trace w ++ [EGet url] |}).
Proof.
  intros Hr Hc. unfold download_image, bind, log, ret. rewrite Hr.
  destruct (Z.eqb_spec code 200); [contradiction | reflexivity].
Qed.

Lemma download_video_kept (tweet_url outtmpl : string) (cookies : option string)
    (w : World) :
  files_kept w (snd (download_video_with_ytdlp env tweet_url outtmpl cookies w)).
Proof.
  intros p Hp. unfold download_video_with_ytdlp, bind, log, raise, ret. simpl.
  match goal with |- context [yt_result ?r] => destruct (yt_result r) as [o|[]] end;
    simpl; apply lookup_union_is_Some; auto.
Qed.

Lemma fetch_photo_kept (url dest : string) (w : World) :
  files_kept w (snd (fetch_photo env url dest w)).
Proof.
  intros p Hp. unfold fetch_photo, bind, path_exists, ret.
  destruct (bool_decide _); [exact Hp|].
  pose proof (download_image_kept url dest w p Hp) as H1.
  destruct (download_image env url dest w) as [[[]|e] w1]; simpl in *; try exact H1.
  destruct (negb _); [|exact H1].
  pose proof (download_image_kept (url +:+ "?name=orig") dest w1 p H1) as H2.
  destruct (download_image env (url +:+ "?name=orig") dest w1) as [[b|e] w2];
    exact H2.
Qed.

End Downloads.

(** C4 (amended): when the destination is not on disk yet and the first
    request for an image is answered with a status other than 200, the
    script asks once more, for the URL followed by [?name=orig], if the
    text [name=] occurs nowhere in the URL; if that text occurs in the URL,
    no second request is made. *)
Theorem C4_retry_once_with_name_orig (env : Env) (url dest : string) (w : World)
    (code : Z) (chunks : list string) (broken : option exn) :
  fs w !! dest = None ->
  session_get env w url = Response code chunks broken ->
  code <> 200 ->
  (Py.contains "name=" url = false ->
   gets (trace (snd (fetch_photo env url dest w)))
   = gets (trace w) ++ [url; url +:+ "?name=orig"]) /\
  (Py.contains "name=" url = true ->
   gets (trace (snd (fetch_photo env url dest w))) = gets (trace w) ++ [url]).
Proof.
  intros Hdest Hreply Hcode.
  assert (Hfirst := download_image_refused env url dest w code chunks broken Hreply Hcode).
  assert (Hex : path_exists dest w = (Ok false, w)).
  { unfold path_exists. rewrite Hdest. reflexivity. }
  split; intros Hname; unfold fetch_photo;
    rewrite (bind_Ok _ _ _ _ _ Hex); cbn iota;
    rewrite (bind_Ok _ _ _ _ _ Hfirst); cbn iota; rewrite Hname; cbn [negb].
  - unfold bind.
    pose proof (download_image_gets env (url +:+ "?name=orig") dest
                  {| fs := fs w; trace := trace w ++ [EGet url] |}) as Hg.
    destruct (download_image env (url +:+ "?name=orig") dest _) as [[b|e] w2];
      cbn [snd ret] in *; rewrite Hg; cbn [trace]; rewrite gets_app; simpl;
      now rewrite <- app_assoc.
  - unfold ret. cbn [snd trace]. now rewrite gets_app.
Qed.

Lemma C4_retry_once_witness :
  gets (trace (snd (fetch_photo (Sample.quiet_env [] 404) Cases.plain_url
                      Cases.photo_dest Sample.empty_world)))
  = [Cases.plain_url; Cases.plain_url +:+ "?name=orig"].
Proof.
  destruct (C4_retry_once_with_name_orig (Sample.quiet_env [] 404) Cases.plain_url
              Cases.photo_dest Sample.empty_world 404 ["data"] None) as [Hretry _].
  - reflexivity.
  - reflexivity.
  - discriminate.
  - apply Hretry. reflexivity.
Defined.

(** C4 as stated fails: the URL below has no query parameter called
    [name], the first answer is 404, and no second request is made. *)
Lemma C4_counterexample :
  has_query_param "name" Cases.odd_url = false /\
  query_param_names Cases.odd_url = ["filename"] /\
  session_get (Sample.quiet_env [] 404) Sample.empty_world Cases.odd_url
    = Response 404 ["data"] None /\
  gets (trace (snd (fetch_photo (Sample.quiet_env [] 404) Cases.odd_url
                      Cases.photo_dest Sample.empty_world)))
    = [Cases.odd_url].
Proof. vm_compute. repeat split. Qed.

(* ===================================================================== *)
(** * The media list of a record *)
(* ===================================================================== *)

Section MediaList.

Context (env : Env) (args : Args) (tweet : Tweet.t).

Lemma glob_id_on_disk (dir id_str p : string) (files : gmap string string) :
  p ∈ glob_id dir id_str files -> is_Some (files !! p).
Proof.
  unfold glob_id. intros [_ Hin]%list_elem_of_filter.
  apply list_elem_of_fmap in Hin as ([k v] & -> & Hkv).
  apply elem_of_map_to_list in Hkv. simpl. eauto.
Qed.

(** One turn of the media loop: files stay, the list keeps what it had and
    gains at most one entry, and a new entry is justified. *)
Lemma handle_media_step (m : Media) (media media' : list MediaItem.t) (w w' : World) :
  handle_media env args tweet m media w = (Ok media', w') ->
  files_kept w w' /\
  (media' = media \/
   exists item, media' = media ++ [item] /\ entry_justified env args tweet m item w w').
Proof.
  unfold handle_media. destruct m as [fullUrl url0| | |].
  - (* a photo *)
    destruct (Py.or_else fullUrl url0) as [url|].
    2: { intros [= <- <-]. split; [intros p Hp; exact Hp | now left]. }
    destruct (negb (Py.truthy url)).
    { intros [= <- <-]. split; [intros p Hp; exact Hp | now left]. }
    set (dest := path_join _ _).
    intros (u & w1 & Hfetch & Hrest)%bind_Ok_inv.
    assert (Hkept : files_kept w w1).
    { pose proof (fetch_photo_kept env url dest w) as Hk. now rewrite Hfetch in Hk. }
    unfold bind, path_exists, ret in Hrest.
    destruct (bool_decide (is_Some (fs w1 !! dest))) eqn:Hpresent;
      injection Hrest as <- <-; (split; [exact Hkept|]); [right | now left].
    eexists. split; [reflexivity|]. split; [reflexivity|].
    exists dest. split; [reflexivity|]. now apply bool_decide_eq_true in Hpresent.
  - (* a video *)
    unfold bind at 1. cbn beta iota.
    destruct (glob_id _ _ (fs w)) as [|first others] eqn:Hglob.
    + intros (final & w1 & Hdl & Hrest)%bind_Ok_inv.
      assert (Hkept : files_kept w w1).
      { pose proof (download_video_kept env (tweet_url_of (user args) tweet)
                      (path_join (videos_dir (user args))
                         (Py.str_of_int (Tweet.id tweet) +:+ "-%(id)s.%(ext)s"))
                      (cookies args) w) as Hk.
        now rewrite Hdl in Hk. }
      unfold ret in Hrest. destruct (Py.truthy_opt final) eqn:Htruthy;
        injection Hrest as <- <-; (split; [exact Hkept|]); [right | now left].
      destruct final as [p|]; [|discriminate].
      eexists. split; [reflexivity|]. split; [now left|].
      exists p. split; [reflexivity|]. right. rewrite Hglob. auto.
    + unfold bind, ret. destruct (Py.truthy_opt (Some first));
        intros [= <- <-]; (split; [intros p Hp; exact Hp|]); [right | now left].
      eexists. split; [reflexivity|]. split; [now left|].
      exists first. split; [reflexivity|]. left. rewrite Hglob. split; [reflexivity|].
      eapply glob_id_on_disk. rewrite Hglob. apply list_elem_of_here.
  - (* a GIF *)
    unfold bind at 1. cbn beta iota.
    destruct (glob_id _ _ (fs w)) as [|first others] eqn:Hglob.
    + intros (final & w1 & Hdl & Hrest)%bind_Ok_inv.
      assert (Hkept : files_kept w w1).
      { pose proof (download_video_kept env (tweet_url_of (user args) tweet)
                      (path_join (videos_dir (user args))
                         (Py.str_of_int (Tweet.id tweet) +:+ "-%(id)s.%(ext)s"))
                      (cookies args) w) as Hk.
        now rewrite Hdl in Hk. }
      unfold ret in Hrest. destruct (Py.truthy_opt final) eqn:Htruthy;
        injection Hrest as <- <-; (split; [exact Hkept|]); [right | now left].
      destruct final as [p|]; [|discriminate].
      eexists. split; [reflexivity|]. split; [now right|].
      exists p. split; [reflexivity|]. right. rewrite Hglob. auto.
    + unfold bind, ret. destruct (Py.truthy_opt (Some first));
        intros [= <- <-]; (split; [intros p Hp; exact Hp|]); [right | now left].
      eexists. split; [reflexivity|]. split; [now right|].
      exists first. split; [reflexivity|]. left. rewrite Hglob. split; [reflexivity|].
      eapply glob_id_on_disk. rewrite Hglob. apply list_elem_of_here.
  - intros [= <- <-]. split; [intros p Hp; exact Hp | now left].
Qed.

Lemma entry_photo_on_disk (m : Media) (item : MediaItem.t) (w w' : World) :
  entry_justified env args tweet m item w w' ->
  MediaItem.type item = "photo" ->
  exists p, MediaItem.local_path item = Some p /\ is_Some (fs w' !! p).
Proof.
  destruct m; simpl.
  - now intros [_ H] _.
  - intros [[H|H] _] Ht; rewrite H in Ht; discriminate.
  - intros [[H|H] _] Ht; rewrite H in Ht; discriminate.
  - contradiction.
Qed.

(** The whole media loop. *)
Lemma handle_all_spec (ms : list Media) (media media' : list MediaItem.t) (w w' : World) :
  handle_all env args tweet ms media w = (Ok media', w') ->
  (forall item, item ∈ media -> MediaItem.type item = "photo" ->
     exists p, MediaItem.local_path item = Some p /\ is_Some (fs w !! p)) ->
  media `prefix_of` media' /\
  (length media' <= length media + length ms)%nat /\
  (forall item, item ∈ media' -> MediaItem.type item = "photo" ->
     exists p, MediaItem.local_path item = Some p /\ is_Some (fs w' !! p)).
Proof.
  revert media w; induction ms as [|m ms IH]; intros media w; simpl.
  - intros [= <- <-] Hinv. repeat split; [reflexivity | lia | exact Hinv].
  - intros (media1 & w1 & Hstep & Hrest)%bind_Ok_inv Hinv.
    apply handle_media_step in Hstep as [Hkept Hstep].
    assert (Hinv1 : forall item, item ∈ media1 -> MediaItem.type item = "photo" ->
              exists p, MediaItem.local_path item = Some p /\ is_Some (fs w1 !! p)).
    { destruct Hstep as [-> | (new & -> & Hjust)]; intros item Hin Hty.
      - destruct (Hinv item Hin Hty) as (p & Hp & Hfs). eauto.
      - apply elem_of_app in Hin as [Hin | Hin%list_elem_of_singleton].
        + destruct (Hinv item Hin Hty) as (p & Hp & Hfs). eauto.
        + subst item. eapply entry_photo_on_disk; eauto. }
    destruct (IH _ _ Hrest Hinv1) as (Hpre & Hlen & Hall).
    repeat split; [| |exact Hall].
    + destruct Hstep as [-> | (new & -> & _)]; [exact Hpre|].
      etransitivity; [|exact Hpre]. now apply prefix_app_r.
    + destruct Hstep as [-> | (new & -> & _)]; [lia|].
      rewrite length_app in Hlen. simpl in Hlen. lia.
Qed.

Lemma build_record_media (w w' : World) (rec : TweetRecord.t) :
  build_record env args tweet w = (Ok rec, w') ->
  handle_all env args tweet (default [] (getattr (Tweet.media tweet))) [] w
    = (Ok (TweetRecord.media rec), w').
Proof.
  unfold build_record.
  intros (d & w1 & Hd & H)%bind_Ok_inv.
  apply bind_Ok_inv in H as (d' & w2 & Hd' & H).
  apply bind_Ok_inv in H as (c & w3 & Hc & H).
  apply bind_Ok_inv in H as (media & w4 & Hm & H).
  injection H as <- <-. cbn [TweetRecord.media].
  assert (w1 = w) as -> by (destruct (Tweet.date tweet); inversion Hd; reflexivity).
  assert (w2 = w) as -> by (destruct d; inversion Hd'; reflexivity).
  assert (w3 = w) as -> by (destruct (Tweet.rawContent tweet); inversion Hc; reflexivity).
  exact Hm.
Qed.

End MediaList.

(** C8 (amended): the media list of a record gains at most one entry per
    media object of the post and never loses one; a photo entry is added
    only when its file is on disk at that moment (and the file is still
    there when the record is complete); a video or GIF entry carries the
    first file found by the skip check, which is on disk, or else the name
    the yt-dlp helper returned, which is recorded without looking at the
    disk. *)
Theorem C8_media_entries (env : Env) (args : Args) (tweet : Tweet.t)
    (w w' : World) (rec : TweetRecord.t) :
  build_record env args tweet w = (Ok rec, w') ->
  (length (TweetRecord.media rec)
     <= length (default [] (getattr (Tweet.media tweet))))%nat /\
  (forall item, item ∈ TweetRecord.media rec -> MediaItem.type item = "photo" ->
     exists p, MediaItem.local_path item = Some p /\ is_Some (fs w' !! p)) /\
  (forall (m : Media) (media media' : list MediaItem.t) (w1 w2 : World),
     handle_media env args tweet m media w1 = (Ok media', w2) ->
     media `prefix_of` media' /\
     (length media' <= S (length media))%nat /\
     (forall item, media' = media ++ [item] ->
        entry_justified env args tweet m item w1 w2)).
Proof.
  intros Hb. apply build_record_media in Hb.
  apply handle_all_spec in Hb as (_ & Hlen & Hdisk).
  2: { intros item Hin. inversion Hin. }
  repeat split; [exact Hlen | exact Hdisk | | |].
  - apply handle_media_step in H as [_ [-> | (new & -> & _)]];
      [reflexivity | now apply prefix_app_r].
  - apply handle_media_step in H as [_ [-> | (new & -> & _)]];
      [lia | rewrite length_app; simpl; lia].
  - intros item Heq. apply handle_media_step in H as [_ [-> | (new & -> & Hjust)]].
    + exfalso. apply (f_equal length) in Heq. rewrite length_app in Heq.
      simpl in Heq. lia.
    + apply app_inj_tail in Heq as [_ <-]. exact Hjust.
Qed.

Lemma C8_media_entries_witness :
  exists rec w',
    build_record (Sample.quiet_env [] 200) (Sample.args_of 0 50) Cases.photo_tweet
      Sample.empty_world = (Ok rec, w') /\
    (length (TweetRecord.media rec) <= 2)%nat /\
    (forall item, item ∈ TweetRecord.media rec -> MediaItem.type item = "photo" ->
       exists p, MediaItem.local_path item = Some p /\ is_Some (fs w' !! p)).
Proof.
  pose (r := build_record (Sample.quiet_env [] 200) (Sample.args_of 0 50)
               Cases.photo_tweet Sample.empty_world).
  assert (Hr : exists rec, r = (Ok rec, snd r)).
  { vm_compute. eexists. reflexivity. }
  destruct Hr as [rec Hr]. exists rec, (snd r).
  destruct (C8_media_entries (Sample.quiet_env [] 200) (Sample.args_of 0 50)
              Cases.photo_tweet Sample.empty_world (snd r) rec Hr) as (Hlen & Hdisk & _).
  split; [exact Hr|]. split; [exact Hlen | exact Hdisk].
Defined.

(** C8 as stated fails: the entry of a video is appended with the file
    name yt-dlp reports, and that file need not be on disk. *)
Lemma C8_counterexample :
  exists rec w',
    build_record (Cases.guessing_env [Cases.video_tweet]) (Sample.args_of 0 50)
      Cases.video_tweet Sample.empty_world = (Ok rec, w') /\
    map MediaItem.local_path (TweetRecord.media rec)
      = [Some "downloads/u/videos/9-abc.mp4"] /\
    fs w' !! "downloads/u/videos/9-abc.mp4" = None.
Proof. vm_compute. eexists. eexists. repeat split. Qed.

Example parse_ex1 :
  Reader.parse (Json.dump_indent2
                  (Json.Arr [Json.Obj [("id", Json.Int (-7)); ("t", Json.Str "a\b")];
                             Json.Arr []; Json.Null]))
  = Some (Json.Arr [Json.Obj [("id", Json.Int (-7)); ("t", Json.Str "a\b")];
                    Json.Arr []; Json.Null]).
Proof. vm_compute. reflexivity. Qed.

Example parse_lines_ex1 :
  Reader.parse_lines
    (jsonl_text [Json.Obj [("id", Json.Int 1)]; Json.Obj [("id", Json.Int 2)]])
  = Some [Json.Obj [("id", Json.Int 1)]; Json.Obj [("id", Json.Int 2)]].
Proof. vm_compute. reflexivity. Qed.

(* ===================================================================== *)
(** * The reader inverts the encoder *)
(* ===================================================================== *)

Section RoundTrip.

Import Json Reader.

(** Induction on values that reaches the items of arrays and objects. *)
Lemma value_ind' (P : value -> Prop) :
  P Null ->
  (forall n, P (Int n)) ->
  (forall s, P (Str s)) ->
  (forall vs, Forall P vs -> P (Arr vs)) ->
  (forall kvs, Forall (fun kv => P (snd kv)) kvs -> P (Obj kvs)) ->
  forall v, P v.
Proof.
  intros HNull HInt HStr HArr HObj. fix IH 1. intros [|n|s|vs|kvs].
  - exact HNull.
  - apply HInt.
  - apply HStr.
  - apply HArr. induction vs as [|x vs IHvs]; constructor; [apply IH | exact IHvs].
  - apply HObj. induction kvs as [|[k x] kvs IHkvs]; constructor;
      [apply IH | exact IHkvs].
Qed.

Lemma encode_arr_cons (ind : option nat) (lvl : nat) (x : value) (xs : list value) :
  encode ind lvl (Arr (x :: xs)) =
  "[" +:+ newline_indent ind (S lvl) +:+ encode ind (S lvl) x +:+
  items_tail ind lvl xs +:+ newline_indent ind lvl +:+ "]".
Proof.
  cbn [encode]. do 3 f_equal. f_equal.
  induction xs as [|y xs IH]; [reflexivity|]. cbn [items_tail]. now rewrite IH.
Qed.

Lemma encode_obj_cons (ind : option nat) (lvl : nat) (k : string) (x : value)
    (kxs : list (string * value)) :
  encode ind lvl (Obj ((k, x) :: kxs)) =
  "{" +:+ newline_indent ind (S lvl) +:+ encode_string k +:+ key_separator +:+
  encode ind (S lvl) x +:+ members_tail ind lvl kxs +:+ newline_indent ind lvl +:+ "}".
Proof.
  cbn [encode]. do 5 f_equal. f_equal.
  induction kxs as [|[k' y] kxs IH]; [reflexivity|]. cbn [members_tail]. now rewrite IH.
Qed.

Lemma skip_ws_app (pre t : string) :
  all_ws pre = true -> skip_ws (pre +:+ t) = skip_ws t.
Proof.
  induction pre as [|c pre IH]; simpl; [reflexivity|].
  intros [Hc Hpre]%andb_prop. rewrite Hc. auto.
Qed.

Lemma all_ws_spaces (n : nat) : all_ws (spaces n) = true.
Proof. induction n; simpl; auto. Qed.

Lemma all_ws_newline_indent (ind : option nat) (lvl : nat) :
  all_ws (newline_indent ind lvl) = true.
Proof. destruct ind; simpl; [apply all_ws_spaces | reflexivity]. Qed.

Lemma all_ws_app (a b : string) :
  all_ws a = true -> all_ws b = true -> all_ws (a +:+ b) = true.
Proof.
  induction a as [|c a IH]; simpl; [auto|].
  intros [Hc Ha]%andb_prop Hb. rewrite Hc. simpl. auto.
Qed.

(** Facts about one character are settled by trying all 256. *)
Ltac each_char c :=
  destruct c as [[] [] [] [] [] [] [] []]; vm_compute;
  repeat split; try reflexivity; intros; try reflexivity; discriminate.

Lemma starts_value_not_ws (c : ascii) : starts_value c = true -> is_ws c = false.
Proof. each_char c. Qed.

Lemma starts_value_not_close (c : ascii) :
  starts_value c = true -> Ascii.eqb c "]" = false /\ Ascii.eqb c "}" = false.
Proof.
  intros H. split; revert H; each_char c.
Qed.

Lemma skip_ws_value (pre t : string) (c : ascii) :
  all_ws pre = true -> starts_value c = true ->
  skip_ws (pre +:+ String c t) = String c t.
Proof.
  intros Hpre Hc. rewrite skip_ws_app by exact Hpre.
  simpl. now rewrite (starts_value_not_ws c Hc).
Qed.

(** ** Integers *)

Lemma string_of_uint_digits (d : Decimal.uint) :
  all_digits (NilEmpty.string_of_uint d) = true.
Proof. induction d; simpl; auto. Qed.

Lemma span_digits_app (ds rest : string) :
  all_digits ds = true -> ends_number rest = true ->
  span_digits (ds +:+ rest) = (ds, rest).
Proof.
  intros Hds Hrest. induction ds as [|c ds IH]; simpl.
  - destruct rest as [|c r]; [reflexivity|]. simpl in *.
    apply negb_true_iff in Hrest. now rewrite Hrest.
  - simpl in Hds. apply andb_prop in Hds as [Hc Hds]. rewrite Hc, IH by exact Hds.
    reflexivity.
Qed.

Lemma digit_not_minus (c : ascii) : is_digit c = true -> Ascii.eqb c "-" = false.
Proof. each_char c. Qed.

Lemma read_int_digits (d : Decimal.uint) (rest : string) :
  d <> Decimal.Nil -> ends_number rest = true ->
  read_int (NilEmpty.string_of_uint d +:+ rest) = Some (Z.of_int (Decimal.Pos d), rest).
Proof.
  intros Hd Hrest. unfold read_int.
  pose proof (string_of_uint_digits d) as Hall.
  pose proof (NilEmpty.usu d) as Husu.
  destruct (NilEmpty.string_of_uint d) as [|c ds] eqn:Hs.
  { destruct d; simpl in Hs; congruence. }
  cbn [String.append]. pose proof Hall as Hall'.
  cbn [all_digits] in Hall. apply andb_prop in Hall as [Hc Hds].
  rewrite (digit_not_minus c Hc).
  change (String c (ds +:+ rest)) with (String c ds +:+ rest).
  rewrite span_digits_app by assumption.
  cbn [String.append]. unfold NilEmpty.int_of_string.
  rewrite (digit_not_minus c Hc), Husu. reflexivity.
Qed.

Lemma read_int_negative (d : Decimal.uint) (rest : string) :
  d <> Decimal.Nil -> ends_number rest = true ->
  read_int (String "-" (NilEmpty.string_of_uint d) +:+ rest)
  = Some (Z.of_int (Decimal.Neg d), rest).
Proof.
  intros Hd Hrest. unfold read_int. cbn [String.append].
  rewrite Ascii.eqb_refl.
  rewrite span_digits_app by (auto using string_of_uint_digits).
  pose proof (NilEmpty.usu d) as Husu.
  destruct (NilEmpty.string_of_uint d) as [|c ds] eqn:Hs.
  { destruct d; simpl in Hs; congruence. }
  cbn [String.append]. unfold NilEmpty.int_of_string.
  rewrite Ascii.eqb_refl, Husu. reflexivity.
Qed.

Lemma to_int_cases (n : Z) :
  exists d, d <> Decimal.Nil /\
            (Z.to_int n = Decimal.Pos d \/ Z.to_int n = Decimal.Neg d).
Proof.
  destruct n as [|p|p]; simpl.
  - exists Decimal.zero. split; [discriminate | now left].
  - exists (Pos.to_uint p). split; [apply Unsigned.to_uint_nonnil | now left].
  - exists (Pos.to_uint p). split; [apply Unsigned.to_uint_nonnil | now right].
Qed.

Lemma read_int_str (n : Z) (rest : string) :
  ends_number rest = true ->
  read_int (Py.str_of_int n +:+ rest) = Some (n, rest).
Proof.
  intros Hrest. unfold Py.str_of_int.
  destruct (to_int_cases n) as (d & Hd & [Hn | Hn]); rewrite Hn;
    cbn [NilEmpty.string_of_int].
  - rewrite read_int_digits by assumption. now rewrite <- Hn, DecimalZ.of_to.
  - rewrite read_int_negative by assumption. now rewrite <- Hn, DecimalZ.of_to.
Qed.

Lemma str_of_int_starts (n : Z) :
  exists c r, Py.str_of_int n = String c r /\
              (is_digit c || Ascii.eqb c "-") = true.
Proof.
  unfold Py.str_of_int.
  destruct (to_int_cases n) as (d & Hd & [Hn | Hn]); rewrite Hn;
    cbn [NilEmpty.string_of_int].
  - pose proof (string_of_uint_digits d) as Hall.
    destruct (NilEmpty.string_of_uint d) as [|c ds] eqn:Hs.
    { destruct d; simpl in Hs; congruence. }
    cbn [all_digits] in Hall. apply andb_prop in Hall as [Hc _].
    exists c, ds. now rewrite Hc.
  - eexists _, _. split; [reflexivity|]. reflexivity.
Qed.

(** ** Strings *)

Lemma read_escape_char (c : ascii) (t : string) :
  read_string_body (escape_char c +:+ t) = push c (read_string_body t).
Proof.
  destruct c as [[] [] [] [] [] [] [] []];
    cbn -[read_string_body]; cbn [read_string_body]; reflexivity.
Qed.

Lemma read_escape (s rest : string) :
  read_string_body (escape s +:+ String quote rest) = Some (s, rest).
Proof.
  induction s as [|c s IH].
  - cbn [escape String.append read_string_body]. now rewrite Ascii.eqb_refl.
  - cbn [escape]. rewrite append_assoc, read_escape_char, IH. reflexivity.
Qed.

Lemma read_encode_string (s rest : string) :
  exists t, encode_string s +:+ rest = String quote t /\
            read_string_body t = Some (s, rest).
Proof.
  unfold encode_string. eexists. split; [reflexivity|].
  rewrite append_assoc. cbn [String.append]. apply read_escape.
Qed.

(** ** The first character of an encoded value *)

Lemma encode_starts (ind : option nat) (lvl : nat) (v : value) :
  exists c t, encode ind lvl v = String c t /\ starts_value c = true.
Proof.
  destruct v as [|n|s|[|x xs]|[|[k x] kxs]].
  - now eexists _, _.
  - destruct (str_of_int_starts n) as (c & r & Hs & Hc). exists c, r.
    split; [exact Hs|]. unfold starts_value. now rewrite Hc.
  - now eexists _, _.
  - now eexists _, _.
  - rewrite encode_arr_cons. now eexists _, _.
  - now eexists _, _.
  - rewrite encode_obj_cons. now eexists _, _.
Qed.

(** ** Arrays and objects, one step at a time *)

Lemma read_items_more (rv : string -> option (value * string)) (n : nat)
    (s r1 r2 rest : string) (v : value) (vs : list value) :
  rv s = Some (v, r1) -> skip_ws r1 = String "," r2 ->
  read_items rv n r2 = Some (vs, rest) ->
  read_items rv (S n) s = Some (v :: vs, rest).
Proof. intros H1 H2 H3. cbn [read_items]. now rewrite H1, H2, H3. Qed.

Lemma read_items_last (rv : string -> option (value * string)) (n : nat)
    (s r1 rest : string) (v : value) :
  rv s = Some (v, r1) -> skip_ws r1 = String "]" rest ->
  read_items rv (S n) s = Some ([v], rest).
Proof. intros H1 H2. cbn [read_items]. now rewrite H1, H2. Qed.

Lemma read_members_more (rv : string -> option (value * string)) (n : nat)
    (s r0 r1 r2 r3 r4 rest k : string) (v : value) (kvs : list (string * value)) :
  skip_ws s = String quote r0 -> read_string_body r0 = Some (k, r1) ->
  skip_ws r1 = String ":" r2 -> rv r2 = Some (v, r3) ->
  skip_ws r3 = String "," r4 -> read_members rv n r4 = Some (kvs, rest) ->
  read_members rv (S n) s = Some ((k, v) :: kvs, rest).
Proof.
  intros H0 H1 H2 H3 H4 H5. cbn [read_members].
  rewrite H0. cbn. now rewrite H1, H2, H3, H4, H5.
Qed.

Lemma read_members_last (rv : string -> option (value * string)) (n : nat)
    (s r0 r1 r2 r3 rest k : string) (v : value) :
  skip_ws s = String quote r0 -> read_string_body r0 = Some (k, r1) ->
  skip_ws r1 = String ":" r2 -> rv r2 = Some (v, r3) ->
  skip_ws r3 = String "}" rest ->
  read_members rv (S n) s = Some ([(k, v)], rest).
Proof.
  intros H0 H1 H2 H3 H4. cbn [read_members].
  rewrite H0. cbn. now rewrite H1, H2, H3, H4.
Qed.

Lemma read_value_arr (f : nat) (s r t rest : string) (c : ascii) (vs : list value) :
  skip_ws s = String "[" r -> skip_ws r = String c t -> Ascii.eqb c "]" = false ->
  read_items (read_value f) f r = Some (vs, rest) ->
  read_value (S f) s = Some (Arr vs, rest).
Proof.
  intros H1 H2 H3 H4. cbn [read_value]. rewrite H1. cbn. now rewrite H2, H3, H4.
Qed.

Lemma read_value_obj (f : nat) (s r t rest : string) (c : ascii)
    (kvs : list (string * value)) :
  skip_ws s = String "{" r -> skip_ws r = String c t -> Ascii.eqb c "}" = false ->
  read_members (read_value f) f r = Some (kvs, rest) ->
  read_value (S f) s = Some (Obj kvs, rest).
Proof.
  intros H1 H2 H3 H4. cbn [read_value]. rewrite H1. cbn. now rewrite H2, H3, H4.
Qed.

Lemma item_separator_shape (ind : option nat) :
  exists sp, item_separator ind = String "," sp /\ all_ws sp = true.
Proof. destruct ind; eexists; split; reflexivity. Qed.

Lemma ends_number_newline_close (ind : option nat) (lvl : nat) (c : ascii) (rest : string) :
  is_digit c = false ->
  ends_number (newline_indent ind lvl +:+ String c rest) = true.
Proof. intros Hc. destruct ind; simpl; [reflexivity | now rewrite Hc]. Qed.

Lemma read_items_ok (ind : option nat) (lvl : nat)
    (rv : string -> option (value * string)) (xs : list value) :
  forall (x : value) (n : nat) (pre rest : string),
    Forall (reads rv ind) (x :: xs) -> (length xs < n)%nat -> all_ws pre = true ->
    read_items rv n
      (pre +:+ encode ind (S lvl) x +:+ items_tail ind lvl xs +:+
       newline_indent ind lvl +:+ String "]" rest)
    = Some (x :: xs, rest).
Proof.
  induction xs as [|y xs IH]; intros x n pre rest Hall Hn Hpre;
    (destruct n as [|n]; [simpl in Hn; lia|]);
    apply Forall_cons in Hall as [Hx Hxs].
  - cbn [items_tail String.append].
    eapply read_items_last.
    + apply Hx; [exact Hpre|]. now apply ends_number_newline_close.
    + rewrite skip_ws_app by apply all_ws_newline_indent. reflexivity.
  - cbn [items_tail]. destruct (item_separator_shape ind) as (sp & -> & Hsp).
    rewrite !append_assoc. cbn [String.append].
    eapply read_items_more.
    + apply Hx; [exact Hpre | reflexivity].
    + reflexivity.
    + rewrite <- (append_assoc sp). apply IH; [exact Hxs | simpl in Hn; lia|].
      apply all_ws_app; [exact Hsp | apply all_ws_newline_indent].
Qed.

Lemma read_members_ok (ind : option nat) (lvl : nat)
    (rv : string -> option (value * string)) (kxs : list (string * value)) :
  forall (k : string) (x : value) (n : nat) (pre rest : string),
    Forall (fun kv => reads rv ind (snd kv)) ((k, x) :: kxs) ->
    (length kxs < n)%nat -> all_ws pre = true ->
    read_members rv n
      (pre +:+ encode_string k +:+ key_separator +:+ encode ind (S lvl) x +:+
       members_tail ind lvl kxs +:+ newline_indent ind lvl +:+ String "}" rest)
    = Some ((k, x) :: kxs, rest).
Proof.
  induction kxs as [|[k' y] kxs IH]; intros k x n pre rest Hall Hn Hpre;
    (destruct n as [|n]; [simpl in Hn; lia|]);
    apply Forall_cons in Hall as [Hx Hxs]; cbn [snd] in Hx.
  - cbn [members_tail String.append].
    destruct (read_encode_string k
                (key_separator +:+ encode ind (S lvl) x +:+
                 newline_indent ind lvl +:+ String "}" rest)) as (t & Ht & Hread).
    eapply read_members_last.
    + rewrite skip_ws_app by exact Hpre. rewrite Ht. reflexivity.
    + exact Hread.
    + reflexivity.
    + apply (Hx (S lvl) " "); [reflexivity|]. now apply ends_number_newline_close.
    + rewrite skip_ws_app by apply all_ws_newline_indent. reflexivity.
  - cbn [members_tail]. destruct (item_separator_shape ind) as (sp & -> & Hsp).
    rewrite !append_assoc.
    destruct (read_encode_string k
                (key_separator +:+ encode ind (S lvl) x +:+ String "," sp +:+
                 newline_indent ind (S lvl) +:+ encode_string k' +:+ key_separator +:+
                 encode ind (S lvl) y +:+ members_tail ind lvl kxs +:+
                 newline_indent ind lvl +:+ String "}" rest)) as (t & Ht & Hread).
    eapply read_members_more.
    + rewrite skip_ws_app by exact Hpre. cbn [String.append] in Ht |- *.
      rewrite Ht. reflexivity.
    + exact Hread.
    + reflexivity.
    + apply (Hx (S lvl) " "); reflexivity.
    + reflexivity.
    + rewrite <- (append_assoc sp). apply IH; [exact Hxs | simpl in Hn; lia|].
      apply all_ws_app; [exact Hsp | apply all_ws_newline_indent].
Qed.

(** ** Fuel *)

Lemma weight_arr (vs : list value) : weight (Arr vs) = S (items_weight vs).
Proof. reflexivity. Qed.

Lemma weight_obj (kvs : list (string * value)) :
  weight (Obj kvs) = S (members_weight kvs).
Proof. reflexivity. Qed.

Lemma items_weight_length (vs : list value) : (length vs <= items_weight vs)%nat.
Proof. induction vs as [|x vs IH]; simpl; lia. Qed.

Lemma members_weight_length (kvs : list (string * value)) :
  (length kvs <= members_weight kvs)%nat.
Proof. induction kvs as [|[k x] kvs IH]; simpl; lia. Qed.

Lemma items_weight_elem (vs : list value) (v : value) :
  v ∈ vs -> (weight v < items_weight vs)%nat.
Proof.
  induction vs as [|x vs IH]; intros Hin; [inversion Hin|].
  apply elem_of_cons in Hin as [-> | Hin]; cbn [items_weight]; [lia|].
  specialize (IH Hin). lia.
Qed.

Lemma members_weight_elem (kvs : list (string * value)) (kv : string * value) :
  kv ∈ kvs -> (weight (snd kv) < members_weight kvs)%nat.
Proof.
  induction kvs as [|[k x] kvs IH]; intros Hin; [inversion Hin|].
  apply elem_of_cons in Hin as [-> | Hin]; cbn [members_weight snd]; [lia|].
  specialize (IH Hin). lia.
Qed.

(** ** The reader gives back the value that was encoded *)

Lemma read_encode (ind : option nat) (v : value) :
  forall fuel, (weight v < fuel)%nat -> reads (read_value fuel) ind v.
Proof.
  induction v as [|n|s|vs IH|kvs IH] using value_ind';
    intros [|f] Hf lvl pre rest Hpre Hrest; try (exfalso; simpl in Hf; lia).
  - (* null *)
    cbn [read_value]. rewrite skip_ws_app by exact Hpre. reflexivity.
  - (* an integer *)
    destruct (str_of_int_starts n) as (c & r & Hs & Hc).
    assert (Hsv : starts_value c = true) by (unfold starts_value; now rewrite Hc).
    cbn [read_value encode]. rewrite skip_ws_app by exact Hpre.
    rewrite Hs. cbn [String.append skip_ws].
    rewrite (starts_value_not_ws c Hsv), Hc.
    change (String c (r +:+ rest)) with (String c r +:+ rest).
    rewrite <- Hs, read_int_str by exact Hrest. reflexivity.
  - (* a string *)
    destruct (read_encode_string s rest) as (t & Ht & Hread).
    cbn [read_value encode]. rewrite skip_ws_app by exact Hpre.
    rewrite Ht. cbn. now rewrite Hread.
  - (* an array *)
    rewrite weight_arr in Hf.
    destruct vs as [|x xs].
    { cbn [read_value encode]. rewrite skip_ws_app by exact Hpre. reflexivity. }
    rewrite encode_arr_cons, !append_assoc.
    destruct (encode_starts ind (S lvl) x) as (c & t & Hx & Hc).
    destruct (starts_value_not_close c Hc) as [Hclose _].
    eapply read_value_arr.
    + rewrite skip_ws_app by exact Hpre. reflexivity.
    + rewrite Hx. cbn [String.append].
      apply skip_ws_value; [apply all_ws_newline_indent | exact Hc].
    + exact Hclose.
    + cbn [String.append]. apply read_items_ok.
      * apply Forall_forall. intros v Hv.
        apply (proj1 (Forall_forall _ _) IH v Hv).
        pose proof (items_weight_elem _ _ Hv). lia.
      * pose proof (items_weight_length xs) as Hl.
        cbn [items_weight] in Hf. lia.
      * apply all_ws_newline_indent.
  - (* an object *)
    rewrite weight_obj in Hf.
    destruct kvs as [|[k x] kxs].
    { cbn [read_value encode]. rewrite skip_ws_app by exact Hpre. reflexivity. }
    rewrite encode_obj_cons, !append_assoc.
    eapply read_value_obj.
    + rewrite skip_ws_app by exact Hpre. reflexivity.
    + unfold encode_string. cbn [String.append].
      apply skip_ws_value; [apply all_ws_newline_indent | reflexivity].
    + reflexivity.
    + cbn [String.append]. apply read_members_ok.
      * apply Forall_forall. intros kv Hkv.
        apply (proj1 (Forall_forall _ _) IH kv Hkv).
        pose proof (members_weight_elem _ _ Hkv). lia.
      * pose proof (members_weight_length kxs) as Hl.
        cbn [members_weight] in Hf. lia.
      * apply all_ws_newline_indent.
Qed.

Lemma items_tail_length (ind : option nat) (lvl : nat) (xs : list value) :
  Forall (fun v => forall l, (weight v <= String.length (encode ind l v))%nat) xs ->
  (items_weight xs <= String.length (items_tail ind lvl xs))%nat.
Proof.
  induction 1 as [|y xs Hy _ IH]; [simpl; lia|].
  cbn [items_tail items_weight]. destruct (item_separator_shape ind) as (sp & -> & _).
  specialize (Hy (S lvl)). cbn [String.append String.length].
  rewrite !length_append. lia.
Qed.

Lemma members_tail_length (ind : option nat) (lvl : nat) (kxs : list (string * value)) :
  Forall (fun kv => forall l, (weight (snd kv) <= String.length (encode ind l (snd kv)))%nat)
         kxs ->
  (members_weight kxs <= String.length (members_tail ind lvl kxs))%nat.
Proof.
  induction 1 as [|[k y] kxs Hy _ IH]; [simpl; lia|].
  cbn [members_tail members_weight]. destruct (item_separator_shape ind) as (sp & -> & _).
  specialize (Hy (S lvl)). cbn [snd] in Hy. cbn [String.append String.length].
  rewrite !length_append. lia.
Qed.

Lemma weight_le_length (ind : option nat) (v : value) :
  forall lvl, (weight v <= String.length (encode ind lvl v))%nat.
Proof.
  induction v as [|n|s|vs IH|kvs IH] using value_ind'; intros lvl.
  - simpl. lia.
  - destruct (str_of_int_starts n) as (c & r & Hs & _). cbn [encode weight].
    rewrite Hs. simpl. lia.
  - simpl. lia.
  - destruct vs as [|x xs]; [simpl; lia|].
    apply Forall_cons in IH as [Hx Hxs].
    rewrite encode_arr_cons, weight_arr. cbn [items_weight String.append String.length].
    rewrite !length_append. specialize (Hx (S lvl)).
    pose proof (items_tail_length ind lvl xs Hxs). simpl. lia.
  - destruct kvs as [|[k x] kxs]; [simpl; lia|].
    apply Forall_cons in IH as [Hx Hxs]. cbn [snd] in Hx.
    rewrite encode_obj_cons, weight_obj. cbn [members_weight String.append String.length].
    rewrite !length_append. specialize (Hx (S lvl)).
    pose proof (members_tail_length ind lvl kxs Hxs). simpl. lia.
Qed.

(** A document written by the encoder is read back as the value it was
    written from. *)
Lemma parse_encode (ind : option nat) (v : value) :
  parse (encode ind 0 v) = Some v.
Proof.
  unfold parse.
  pose proof (read_encode ind v (S (String.length (encode ind 0 v)))) as Hread.
  specialize (Hread ltac:(pose proof (weight_le_length ind v 0%nat); lia)
                    0%nat EmptyString EmptyString eq_refl eq_refl).
  cbn [String.append] in Hread. rewrite append_empty_r in Hread.
  now rewrite Hread.
Qed.

(** ** Lines *)

Lemma lacks_app (c : ascii) (a b : string) :
  lacks c (a +:+ b) = lacks c a && lacks c b.
Proof.
  induction a as [|x a IH]; simpl; [reflexivity|]. rewrite IH.
  now rewrite andb_assoc.
Qed.

Lemma escape_char_lacks_LF (c : ascii) : lacks LF (escape_char c) = true.
Proof. each_char c. Qed.

Lemma escape_lacks_LF (s : string) : lacks LF (escape s) = true.
Proof.
  induction s as [|c s IH]; [reflexivity|]. cbn [escape].
  now rewrite lacks_app, escape_char_lacks_LF, IH.
Qed.

Lemma digit_not_LF (c : ascii) : is_digit c = true -> Ascii.eqb c LF = false.
Proof. each_char c. Qed.

Lemma digits_lack_LF (s : string) : all_digits s = true -> lacks LF s = true.
Proof.
  induction s as [|c s IH]; [reflexivity|]. cbn [all_digits lacks].
  intros [Hc Hs]%andb_prop. now rewrite (digit_not_LF c Hc), IH.
Qed.

Lemma str_of_int_lacks_LF (n : Z) : lacks LF (Py.str_of_int n) = true.
Proof.
  unfold Py.str_of_int.
  destruct (to_int_cases n) as (d & _ & [-> | ->]); cbn [NilEmpty.string_of_int lacks].
  - apply digits_lack_LF, string_of_uint_digits.
  - rewrite digits_lack_LF by apply string_of_uint_digits. reflexivity.
Qed.

Lemma encode_string_lacks_LF (s : string) : lacks LF (encode_string s) = true.
Proof.
  unfold encode_string. cbn [lacks]. rewrite lacks_app, escape_lacks_LF. reflexivity.
Qed.

(** Without indentation the encoder writes no line feed. *)
Lemma dumps_lacks_LF (v : value) : forall lvl, lacks LF (encode None lvl v) = true.
Proof.
  induction v as [|n|s|vs IH|kvs IH] using value_ind'; intros lvl.
  - reflexivity.
  - apply str_of_int_lacks_LF.
  - apply encode_string_lacks_LF.
  - destruct vs as [|x xs]; [reflexivity|].
    apply Forall_cons in IH as [Hx Hxs].
    rewrite encode_arr_cons. cbn [newline_indent String.append lacks].
    rewrite !lacks_app, Hx. cbn.
    assert (Htail : lacks LF (items_tail None lvl xs) = true).
    { clear Hx. induction Hxs as [|y xs Hy _ IHxs]; [reflexivity|].
      cbn [items_tail item_separator newline_indent String.append lacks].
      rewrite !lacks_app, Hy, IHxs. reflexivity. }
    now rewrite Htail.
  - destruct kvs as [|[k x] kxs]; [reflexivity|].
    apply Forall_cons in IH as [Hx Hxs]. cbn [snd] in Hx.
    rewrite encode_obj_cons. cbn [newline_indent String.append lacks].
    rewrite !lacks_app, Hx, encode_string_lacks_LF. cbn.
    assert (Htail : lacks LF (members_tail None lvl kxs) = true).
    { clear Hx. induction Hxs as [|[k' y] kxs Hy _ IHxs]; [reflexivity|].
      cbn [snd] in Hy.
      cbn [members_tail item_separator newline_indent String.append lacks].
      rewrite !lacks_app, Hy, IHxs, encode_string_lacks_LF. reflexivity. }
    now rewrite Htail.
Qed.

Lemma split_on_line (a b : string) :
  lacks LF a = true ->
  Py.split_on LF (a +:+ String LF b) = a :: Py.split_on LF b.
Proof.
  induction a as [|c a IH]; cbn [String.append Py.split_on lacks].
  - intros _. now rewrite Ascii.eqb_refl.
  - intros [Hc Ha]%andb_prop. apply negb_true_iff in Hc. rewrite Hc, IH by exact Ha.
    reflexivity.
Qed.

(** The line-delimited text is read back as the list it was written from. *)
Lemma parse_lines_jsonl (data : list value) :
  parse_lines (jsonl_text data) = Some data.
Proof.
  unfold parse_lines. induction data as [|r data IH].
  - reflexivity.
  - cbn [jsonl_text]. rewrite append_assoc. cbn [String.append].
    rewrite split_on_line by apply dumps_lacks_LF.
    rewrite filter_cons_True.
    2: { destruct (encode_starts None 0 r) as (c & t & Hs & _).
         unfold dumps. rewrite Hs. discriminate. }
    cbn [parse_all]. unfold dumps at 1. rewrite parse_encode.
    now rewrite IH.
Qed.

End RoundTrip.

(* ===================================================================== *)
(** * The two output files *)
(* ===================================================================== *)

Section Output.

Lemma main_files (env : Env) (args : Args) (w w' : World)
    (how : loop_exit) (recs : list TweetRecord.t) :
  main env args w = (how, recs, w') ->
  (forall e, how <> Crashed e) ->
  fs w' !! json_path (user args) = Some (Json.dump_indent2 (Json.Arr (out_data recs))) /\
  fs w' !! jsonl_path (user args) = Some (jsonl_text (out_data recs)).
Proof.
  intros Hmain Hhow.
  destruct (iter_user_tweets env (user args) (since args) (limit args))
    as [tweets ending] eqn:Hit.
  destruct (run_loop env args tweets ending initial_state w) as [[how0 st] w1] eqn:Hrun.
  rewrite (main_unfold env args w w1 _ _ _ _ Hit Hrun) in Hmain.
  injection Hmain as <- <- <-.
  destruct (persist_files (user args) (records st) w1) as (Hj & Hl & _).
  destruct how0; try (split; assumption). now destruct (Hhow e).
Qed.

End Output.

(** C7: at the end of every run that reaches the end of [main], the
    array-form file parses to an array and the line-delimited file parses
    to a list of documents, and the two hold the same record objects in the
    same order: those of the records accumulated by the run. *)
Theorem C7_output_files_agree (env : Env) (args : Args) (w w' : World)
    (how : loop_exit) (recs : list TweetRecord.t) :
  main env args w = (how, recs, w') ->
  (forall e, how <> Crashed e) ->
  exists array_text lines_text : string,
    fs w' !! json_path (user args) = Some array_text /\
    fs w' !! jsonl_path (user args) = Some lines_text /\
    Reader.parse array_text = Some (Json.Arr (out_data recs)) /\
    Reader.parse_lines lines_text = Some (out_data recs).
Proof.
  intros Hmain Hhow.
  destruct (main_files env args w w' how recs Hmain Hhow) as [Hj Hl].
  eexists _, _. split; [exact Hj|]. split; [exact Hl|]. split.
  - apply parse_encode.
  - apply parse_lines_jsonl.
Qed.

Lemma C7_output_files_agree_witness :
  exists array_text lines_text : string,
    fs (snd (main Runs.limit_env Runs.limit_args Sample.empty_world)) !! json_path "u"
      = Some array_text /\
    fs (snd (main Runs.limit_env Runs.limit_args Sample.empty_world)) !! jsonl_path "u"
      = Some lines_text /\
    Reader.parse array_text
      = Some (Json.Arr (out_data
           (snd (fst (main Runs.limit_env Runs.limit_args Sample.empty_world))))) /\
    Reader.parse_lines lines_text
      = Some (out_data (snd (fst (main Runs.limit_env Runs.limit_args Sample.empty_world)))).
Proof.
  apply (C7_output_files_agree Runs.limit_env Runs.limit_args Sample.empty_world _ Exhausted).
  - reflexivity.
  - discriminate.
Defined.

Section Loading.

Lemma each_map {A} (f : Json.value -> option A) (g : A -> Json.value) (l : list A) :
  (forall x, f (g x) = Some x) -> Load.each f (map g l) = Some l.
Proof.
  intros Hfg. induction l as [|x l IH]; [reflexivity|].
  cbn [map Load.each]. now rewrite Hfg, IH.
Qed.

Lemma load_media_item (mi : MediaItem.t) : Load.media_item (asdict_media mi) = Some mi.
Proof. destruct mi as [t u [p|]]; reflexivity. Qed.

Lemma load_record (r : TweetRecord.t) : Load.record (out_record r) = Some r.
Proof.
  destruct r as [i u d c rp rt lk qt vc ms].
  unfold Load.record, Load.media_field.
  change (Json.field "media" (out_record _))
    with (Some (Json.Arr (map asdict_media ms))).
  cbn beta iota. rewrite (each_map _ _ ms load_media_item).
  destruct vc; reflexivity.
Qed.

(** Both files load back as the records they were written from. *)
Lemma load_files (recs : list TweetRecord.t) :
  Load.array_file (Json.dump_indent2 (Json.Arr (out_data recs))) = Some recs /\
  Load.lines_file (jsonl_text (out_data recs)) = Some recs.
Proof.
  unfold Load.array_file, Load.lines_file, Json.dump_indent2.
  rewrite parse_encode, parse_lines_jsonl. unfold out_data.
  now rewrite (each_map _ _ recs load_record).
Qed.

End Loading.

(** C1: with an error budget K >= 1, when K posts in a row each raise an
    exception other than Ctrl-C (the streak starting with the counter at
    zero), the loop stops right after the K-th failure: nothing happens in
    the world after it except the two writes.  Both files then hold
    exactly the records appended before the streak began: loaded back,
    each file gives that very list of records, which were built from
    posts before the streak, in their order. *)
Theorem C1_error_budget_stops_run (env : Env) (args : Args)
    (pre streak rest : list Tweet.t) (ending : option exn)
    (w0 w1 w2 : World) (st1 : loop_state) :
  1 <= max_consec_errors args ->
  iter_user_tweets env (user args) (since args) (limit args)
    = (pre ++ streak ++ rest, ending) ->
  run_loop env args pre None initial_state w0 = (Exhausted, st1, w1) ->
  consec_errors st1 = 0 ->
  Z.of_nat (length streak) = max_consec_errors args ->
  failing_streak env args streak w1 = Some w2 ->
  exists w',
    main env args w0 = (TooManyErrors, records st1, w') /\
    trace w' = trace w2 ++ [EWrite (json_path (user args)); EWrite (jsonl_path (user args))] /\
    fs w' !! json_path (user args)
      = Some (Json.dump_indent2 (Json.Arr (out_data (records st1)))) /\
    fs w' !! jsonl_path (user args) = Some (jsonl_text (out_data (records st1))) /\
    (exists array_text lines_text : string,
        fs w' !! json_path (user args) = Some array_text /\
        fs w' !! jsonl_path (user args) = Some lines_text /\
        Load.array_file array_text = Some (records st1) /\
        Load.lines_file lines_text = Some (records st1)) /\
    (exists ts, sublist ts pre /\ Forall2 (built env args) (records st1) ts).
Proof.
  intros HK Hit Hpre Hzero Hlen Hstreak.
  exists (snd (persist (user args) (records st1) w2)).
  assert (Hrun : run_loop env args (pre ++ streak ++ rest) ending initial_state w0
                 = (TooManyErrors,
                    {| records := records st1;
                       consec_errors := max_consec_errors args |}, w2)).
  { rewrite (run_loop_app env args pre _ ending _ _ _ _ Hpre).
    apply run_loop_streak; [exact Hstreak | lia]. }
  rewrite (main_unfold env args w0 w2 _ _ _ _ Hit Hrun). cbn [records].
  destruct (persist_files (user args) (records st1) w2) as (Hj & Hl & Ht).
  destruct (load_files (records st1)) as [Hla Hll].
  split; [reflexivity|]. split; [exact Ht|]. split; [exact Hj|]. split; [exact Hl|].
  split.
  - eexists _, _. split; [exact Hj|]. split; [exact Hl|]. split; assumption.
  - destruct (run_loop_built env args _ _ _ _ _ _ _ Hpre) as (new & ts & Hr & Hsub & Hall).
    exists ts. cbn [initial_state records app] in Hr. subst new. auto.
Qed.

Lemma C1_error_budget_witness :
  exists w' array_text lines_text,
    main Runs.streak_env Runs.streak_args Sample.empty_world
      = (TooManyErrors,
         records (snd (fst (run_loop Runs.streak_env Runs.streak_args
                              [Sample.text_tweet 1] None initial_state Sample.empty_world))),
         w') /\
    fs w' !! json_path "u" = Some array_text /\
    fs w' !! jsonl_path "u" = Some lines_text /\
    Load.array_file array_text
      = Some (records (snd (fst (run_loop Runs.streak_env Runs.streak_args
                           [Sample.text_tweet 1] None initial_state Sample.empty_world)))) /\
    Load.lines_file lines_text
      = Some (records (snd (fst (run_loop Runs.streak_env Runs.streak_args
                           [Sample.text_tweet 1] None initial_state Sample.empty_world)))) /\
    map TweetRecord.id
      (records (snd (fst (run_loop Runs.streak_env Runs.streak_args
                           [Sample.text_tweet 1] None initial_state Sample.empty_world))))
      = [1].
Proof.
  pose (pre := [Sample.text_tweet 1]).
  pose (loop1 := run_loop Runs.streak_env Runs.streak_args pre None
                   initial_state Sample.empty_world).
  pose (w2 := default Sample.empty_world
                (failing_streak Runs.streak_env Runs.streak_args
                   [Sample.broken_tweet 2; Sample.broken_tweet 3] (snd loop1))).
  destruct (C1_error_budget_stops_run Runs.streak_env Runs.streak_args
              pre [Sample.broken_tweet 2; Sample.broken_tweet 3] [Sample.text_tweet 4]
              None Sample.empty_world (snd loop1) w2 (snd (fst loop1)))
    as (w' & Hmain & _ & _ & _ & (array_text & lines_text & Hj & Hl & Hla & Hll) & _).
  - vm_compute. discriminate.
  - reflexivity.
  - reflexivity.
  - reflexivity.
  - reflexivity.
  - reflexivity.
  - exists w', array_text, lines_text.
    split; [exact Hmain|]. split; [exact Hj|]. split; [exact Hl|].
    split; [exact Hla|]. split; [exact Hll | reflexivity].
Defined.

(** C9 (amended): in every record object the key [viewCount] is present
    and holds the view counter of the post when it has one and [null]
    otherwise (never 0 by default); [replyCount], [retweetCount],
    [likeCount] and [quoteCount] always hold integers, 0 when the post
    lacks the counter; and the line written for the record reads back as
    this very object. *)
Theorem C9_counter_fields (env : Env) (args : Args) (tweet : Tweet.t)
    (w w' : World) (rec : TweetRecord.t) :
  build_record env args tweet w = (Ok rec, w') ->
  Json.field "viewCount" (out_record rec)
    = Some (match Tweet.viewCount tweet with
            | Val n => Json.Int n
            | _ => Json.Null
            end) /\
  Json.field "replyCount" (out_record rec)
    = Some (Json.Int (match Tweet.replyCount tweet with Val n => n | _ => 0 end)) /\
  Json.field "retweetCount" (out_record rec)
    = Some (Json.Int (match Tweet.retweetCount tweet with Val n => n | _ => 0 end)) /\
  Json.field "likeCount" (out_record rec)
    = Some (Json.Int (match Tweet.likeCount tweet with Val n => n | _ => 0 end)) /\
  Json.field "quoteCount" (out_record rec)
    = Some (Json.Int (match Tweet.quoteCount tweet with Val n => n | _ => 0 end)) /\
  Reader.parse (Json.dumps (out_record rec)) = Some (out_record rec).
Proof.
  intros Hb. split; [|split; [|split; [|split; [|split]]]];
    try apply parse_encode; revert Hb; unfold build_record;
    intros (d & w1 & Hd & H)%bind_Ok_inv;
    apply bind_Ok_inv in H as (d' & w2 & Hd' & H);
    apply bind_Ok_inv in H as (c & w3 & Hc & H);
    apply bind_Ok_inv in H as (media & w4 & Hm & H);
    injection H as <- <-; cbn; try reflexivity.
  now destruct (Tweet.viewCount tweet).
Qed.

Lemma C9_counter_fields_witness :
  exists rec w',
    build_record (Sample.quiet_env [] 200) (Sample.args_of 0 50) (Sample.text_tweet 1)
      Sample.empty_world = (Ok rec, w') /\
    Json.field "viewCount" (out_record rec) = Some Json.Null /\
    Json.field "likeCount" (out_record rec) = Some (Json.Int 0) /\
    Json.field "replyCount" (out_record rec) = Some (Json.Int 3).
Proof.
  pose (r := build_record (Sample.quiet_env [] 200) (Sample.args_of 0 50)
               (Sample.text_tweet 1) Sample.empty_world).
  assert (Hr : exists rec, r = (Ok rec, snd r)).
  { vm_compute. eexists. reflexivity. }
  destruct Hr as [rec Hr]. exists rec, (snd r).
  destruct (C9_counter_fields (Sample.quiet_env [] 200) (Sample.args_of 0 50)
              (Sample.text_tweet 1) Sample.empty_world (snd r) rec Hr)
    as (Hv & Hre & _ & Hl & _ & _).
  split; [exact Hr|]. split; [exact Hv|]. split; [exact Hl | exact Hre].
Defined.

(** C9 as stated fails: for a post without a view counter the key
    [viewCount] is not absent from the record object, it is there with the
    value [null]. *)
Lemma C9_counterexample :
  exists rec w',
    build_record (Sample.quiet_env [] 200) (Sample.args_of 0 50) (Sample.text_tweet 1)
      Sample.empty_world = (Ok rec, w') /\
    Json.field "viewCount" (out_record rec) = Some Json.Null /\
    ~ (Json.field "viewCount" (out_record rec) = None \/
       exists n, Json.field "viewCount" (out_record rec) = Some (Json.Int n)).
Proof.
  vm_compute. eexists. eexists. repeat split.
  intros [H | [n H]]; discriminate.
Qed.


(* ===================================================================== *)
(** * Beyond the claims: the sanitizer *)
(* ===================================================================== *)

(** X1: whatever the maximum, negative ones included, the sanitizer never
    returns a name longer than the one it was given. *)
Theorem X1_safe_filename_never_longer (name : string) (maxlen : Z) :
  Py.len (safe_filename name maxlen) <= Py.len name.
Proof.
  pose proof (re_sub_from_length false name) as Hsub. fold (re_sub name) in Hsub.
  unfold safe_filename, Py.slice_to, Py.len.
  destruct (_ >? _); [|lia].
  destruct (_ <? _); rewrite str_take_length; lia.
Qed.

(** X2: for a maximum that is not negative, sanitizing a sanitized name
    changes nothing. *)
Theorem X2_safe_filename_idempotent (name : string) (maxlen : Z) :
  0 <= maxlen ->
  safe_filename (safe_filename name maxlen) maxlen = safe_filename name maxlen.
Proof.
  intros Hm. rewrite (safe_filename_take (safe_filename name maxlen)) by exact Hm.
  assert (Hall : all_allowed (safe_filename name maxlen) = true).
  { rewrite safe_filename_take by exact Hm. apply take_allowed, re_sub_from_allowed. }
  assert (Hlen : (String.length (safe_filename name maxlen) <= Z.to_nat maxlen)%nat).
  { rewrite safe_filename_take by exact Hm. rewrite str_take_length. lia. }
  unfold re_sub. rewrite re_sub_from_id by exact Hall. now apply str_take_all.
Qed.

Lemma X2_safe_filename_idempotent_witness :
  0 <= 6 /\
  safe_filename (safe_filename "a//b:c*defgh" 6) 6 = safe_filename "a//b:c*defgh" 6.
Proof.
  split; [lia|]. apply (X2_safe_filename_idempotent "a//b:c*defgh" 6). lia.
Defined.

(* ===================================================================== *)
(** * Beyond the claims: downloads *)
(* ===================================================================== *)

Section DownloadFacts.

Context (env : Env).

Lemma write_chunks_result (dest : string) (chunks : list string) (broken : option exn) :
  forall (acc : string) (w : World),
    fs w !! dest = Some acc ->
    write_chunks dest acc chunks broken w
    = (match broken with None => Ok tt | Some e => Raise e end,
       {| fs := <[dest := acc +:+ body_of chunks]> (fs w); trace := trace w |}).
Proof.
  induction chunks as [|chunk more IH]; intros acc w Hacc.
  - cbn [write_chunks body_of]. rewrite append_empty_r, (insert_id _ _ _ Hacc).
    destruct w, broken; reflexivity.
  - cbn [write_chunks body_of]. unfold bind, put_file.
    assert (Hw : (if Py.truthy chunk then acc +:+ chunk else acc) = acc +:+ chunk).
    { destruct chunk; [now rewrite append_empty_r | reflexivity]. }
    rewrite Hw, IH by (cbn [fs]; apply lookup_insert_eq).
    cbn [fs trace]. now rewrite insert_insert_eq, append_assoc.
Qed.

Lemma download_image_200 (url dest : string) (w : World)
    (chunks : list string) (broken : option exn) :
  session_get env w url = Response 200 chunks broken ->
  download_image env url dest w
  = (match broken with None => Ok true | Some e => Raise e end,
     {| fs := <[dest := body_of chunks]> (fs w);
        trace := trace w ++ [EGet url; EWrite dest] |}).
Proof.
  intros Hr. unfold download_image. rewrite Hr. cbn [Z.eqb Pos.eqb].
  unfold bind at 1. unfold log at 1. unfold bind at 1. unfold log at 1.
  unfold bind at 1. unfold put_file at 1. unfold bind at 1.
  rewrite (write_chunks_result dest chunks broken EmptyString)
    by (cbn [fs]; apply lookup_insert_eq).
  cbn [fs trace String.append]. rewrite insert_insert_eq, <- app_assoc.
  destruct broken; reflexivity.
Qed.

Lemma same_but_refl (path : string) (w : World) : same_but path w w.
Proof. intros p _. reflexivity. Qed.

Lemma same_but_trans (path : string) (w1 w2 w3 : World) :
  same_but path w1 w2 -> same_but path w2 w3 -> same_but path w1 w3.
Proof. intros H12 H23 p Hp. now rewrite (H23 p Hp), (H12 p Hp). Qed.

Lemma write_chunks_same_but (dest : string) (chunks : list string) (broken : option exn) :
  forall (acc : string) (w : World),
    same_but dest w (snd (write_chunks dest acc chunks broken w)).
Proof.
  induction chunks as [|chunk more IH]; intros acc w; cbn [write_chunks].
  - destruct broken; apply same_but_refl.
  - unfold bind, put_file. eapply same_but_trans; [|apply IH].
    intros p Hp. cbn [fs]. now apply lookup_insert_ne.
Qed.

Lemma download_image_same_but (url dest : string) (w : World) :
  same_but dest w (snd (download_image env url dest w)).
Proof.
  unfold download_image, bind, log, put_file, raise, ret. simpl.
  destruct (session_get env w url) as [code chunks broken|e]; simpl;
    [|intros p _; reflexivity].
  destruct (code =? 200); simpl; [|intros p _; reflexivity].
  match goal with
  | |- context [write_chunks ?d ?a ?c ?b ?w0] =>
      pose proof (write_chunks_same_but d c b a w0) as Hk;
      destruct (write_chunks d a c b w0) as [[[]|e] w1]
  end; simpl in *; intros p Hp; rewrite (Hk p Hp); now apply lookup_insert_ne.
Qed.

Lemma fetch_photo_gets (url dest : string) (w : World) :
  exists l, gets (trace (snd (fetch_photo env url dest w))) = gets (trace w) ++ l /\
            (length l <= 2)%nat.
Proof.
  unfold fetch_photo, bind, path_exists, ret.
  destruct (bool_decide _).
  { exists []. rewrite app_nil_r. split; [reflexivity | simpl; lia]. }
  pose proof (download_image_gets env url dest w) as H1.
  destruct (download_image env url dest w) as [[[]|e] w1]; cbn [snd] in *.
  - exists [url]. split; [exact H1 | simpl; lia].
  - destruct (negb _).
    + pose proof (download_image_gets env (url +:+ "?name=orig") dest w1) as H2.
      exists [url; url +:+ "?name=orig"].
      destruct (download_image env (url +:+ "?name=orig") dest w1) as [[b|e] w2];
        cbn [snd] in *; rewrite H2, H1, <- app_assoc; split; try reflexivity;
        simpl; lia.
    + exists [url]. split; [exact H1 | simpl; lia].
  - exists [url]. split; [exact H1 | simpl; lia].
Qed.

Lemma download_video_gets (tweet_url outtmpl : string) (cookies : option string)
    (w : World) :
  gets (trace (snd (download_video_with_ytdlp env tweet_url outtmpl cookies w)))
  = gets (trace w).
Proof.
  unfold download_video_with_ytdlp, bind, log, raise, ret. simpl.
  match goal with |- context [yt_result ?r] => destruct (yt_result r) as [o|[]] end;
    simpl; rewrite gets_app; simpl; apply app_nil_r.
Qed.

End DownloadFacts.

(** X3: the result of [download_image] tells what happened to the file:
    [True] means the server answered 200 and the destination now holds the
    whole body; [False] means the file system is exactly as before (no
    empty file is left behind). *)
Theorem X3_download_image_result (env : Env) (url dest : string)
    (w w' : World) (ok : bool) :
  download_image env url dest w = (Ok ok, w') ->
  if ok then
    exists chunks, session_get env w url = Response 200 chunks None /\
                   fs w' = <[dest := body_of chunks]> (fs w)
  else fs w' = fs w.
Proof.
  destruct (session_get env w url) as [code chunks broken|e] eqn:Hr.
  - destruct (Z.eq_dec code 200) as [->|Hne].
    + rewrite (download_image_200 env url dest w chunks broken Hr).
      destruct broken; [discriminate|]. intros [= <- <-]. eauto.
    + rewrite (download_image_refused env url dest w code chunks broken Hr Hne).
      now intros [= <- <-].
  - unfold download_image. rewrite Hr. discriminate.
Qed.

Lemma X3_download_image_result_witness :
  exists chunks,
    session_get (Sample.quiet_env [] 200) Sample.empty_world More.photo_url
      = Response 200 chunks None /\
    fs (snd (download_image (Sample.quiet_env [] 200) More.photo_url More.photo_file
               Sample.empty_world))
      = <[More.photo_file := body_of chunks]> (fs Sample.empty_world).
Proof.
  apply (X3_download_image_result (Sample.quiet_env [] 200) More.photo_url
           More.photo_file Sample.empty_world _ true).
  reflexivity.
Defined.

(** X4: when the body of a 200 answer breaks off, the exception leaves
    [download_image] and the destination keeps the part that arrived; from
    then on the skip check takes the photo as downloaded: as long as the
    file stays, fetching it again makes no request and changes nothing. *)
Theorem X4_broken_download_is_kept (env : Env) (url dest : string) (w : World)
    (chunks : list string) (e : exn) :
  session_get env w url = Response 200 chunks (Some e) ->
  fst (download_image env url dest w) = Raise e /\
  fs (snd (download_image env url dest w)) !! dest = Some (body_of chunks) /\
  forall (env' : Env) (url' : string) (w2 : World),
    files_kept (snd (download_image env url dest w)) w2 ->
    fetch_photo env' url' dest w2 = (Ok tt, w2).
Proof.
  intros Hr. rewrite (download_image_200 env url dest w chunks (Some e) Hr).
  cbn [fst snd fs]. split; [reflexivity|]. split; [apply lookup_insert_eq|].
  intros env' url' w2 Hkept. unfold fetch_photo, bind, path_exists.
  rewrite bool_decide_eq_true_2; [reflexivity|].
  apply Hkept. cbn [fs]. rewrite lookup_insert_eq. eauto.
Qed.

Lemma X4_broken_download_witness :
  fst (download_image More.breaking_env More.photo_url More.photo_file Sample.empty_world)
    = Raise Exception /\
  fs (snd (download_image More.breaking_env More.photo_url More.photo_file
             Sample.empty_world)) !! More.photo_file = Some (body_of ["abc"; "de"]).
Proof.
  destruct (X4_broken_download_is_kept More.breaking_env More.photo_url More.photo_file
              Sample.empty_world ["abc"; "de"] Exception) as (H1 & H2 & _).
  - reflexivity.
  - split; [exact H1 | exact H2].
Defined.

(** X5: fetching a photo, retry included and whatever the outcome, changes
    no file other than the destination of that photo. *)
Theorem X5_fetch_photo_touches_only_dest (env : Env) (url dest : string) (w : World) :
  same_but dest w (snd (fetch_photo env url dest w)).
Proof.
  unfold fetch_photo, bind, path_exists, ret.
  destruct (bool_decide _); [apply same_but_refl|].
  pose proof (download_image_same_but env url dest w) as H1.
  destruct (download_image env url dest w) as [[[]|e] w1]; cbn [snd] in *;
    try exact H1.
  destruct (negb _); [|exact H1].
  pose proof (download_image_same_but env (url +:+ "?name=orig") dest w1) as H2.
  destruct (download_image env (url +:+ "?name=orig") dest w1) as [[b|e] w2];
    cbn [snd] in *; eapply same_but_trans; eauto.
Qed.

(** X6: when the destination of a photo is already on disk, the photo is
    recorded with that path and nothing else happens: no request is made
    and the world is unchanged. *)
Theorem X6_existing_photo_is_skipped (env : Env) (args : Args) (tweet : Tweet.t)
    (fullUrl url0 : option string) (url : string)
    (media : list MediaItem.t) (w : World) :
  Py.or_else fullUrl url0 = Some url ->
  Py.truthy url = true ->
  is_Some (fs w !! path_join (images_dir (user args))
                     (safe_filename (Py.str_of_int (Tweet.id tweet) +:+ "_" +:+
                                     path_name url) default_maxlen)) ->
  handle_media env args tweet (Photo fullUrl url0) media w
  = (Ok (media ++
         [{| MediaItem.type := "photo"; MediaItem.url := url;
             MediaItem.local_path :=
               Some (path_join (images_dir (user args))
                       (safe_filename (Py.str_of_int (Tweet.id tweet) +:+ "_" +:+
                                       path_name url) default_maxlen)) |}]), w).
Proof.
  intros Hurl Htruthy Hdisk. unfold handle_media. rewrite Hurl, Htruthy. cbn [negb].
  unfold fetch_photo, bind, path_exists, ret.
  now rewrite !bool_decide_eq_true_2 by exact Hdisk.
Qed.

Lemma X6_existing_photo_witness :
  handle_media (Sample.quiet_env [] 404) (Sample.args_of 0 50) More.one_photo
    (Photo (Some More.photo_url) None) [] More.photo_present
  = (Ok [{| MediaItem.type := "photo"; MediaItem.url := More.photo_url;
            MediaItem.local_path := Some More.photo_file |}], More.photo_present).
Proof.
  apply (X6_existing_photo_is_skipped (Sample.quiet_env [] 404) (Sample.args_of 0 50)
           More.one_photo (Some More.photo_url) None More.photo_url [] More.photo_present).
  - reflexivity.
  - reflexivity.
  - vm_compute. eauto.
Defined.

(* ===================================================================== *)
(** * Beyond the claims: the media of one post *)
(* ===================================================================== *)

Section PostFacts.

Context (env : Env) (args : Args) (tweet : Tweet.t).

Lemma record_photo_world (dest : string) (a b : list MediaItem.t) (w : World) :
  snd ((present <- path_exists dest ;; if present then ret a else ret b) w) = w.
Proof. unfold bind, path_exists, ret. now destruct (bool_decide _). Qed.

Lemma snd_bind {A B} (c : M A) (k : A -> M B) (w : World) :
  snd (bind c k w)
  = match c w with
    | (Ok a, w1) => snd (k a w1)
    | (Raise _, w1) => w1
    end.
Proof. unfold bind. now destruct (c w) as [[a|e] w1]. Qed.

Lemma handle_media_gets (m : Media) (media : list MediaItem.t) (w : World) :
  (length (gets (trace (snd (handle_media env args tweet m media w))))
   <= length (gets (trace w)) + (if is_photo m then 2 else 0))%nat.
Proof.
  unfold handle_media. destruct m as [fullUrl url0| | |]; cbn [is_photo].
  - destruct (Py.or_else fullUrl url0) as [url|]; [|simpl; lia].
    destruct (negb (Py.truthy url)); [simpl; lia|].
    rewrite snd_bind.
    match goal with
    | |- context [fetch_photo env ?u ?d w] =>
        destruct (fetch_photo_gets env u d w) as (l & Hl & Hlen);
        destruct (fetch_photo env u d w) as [[[]|e] w1]
    end; cbn [snd] in Hl; rewrite ?record_photo_world, Hl, length_app; lia.
  - rewrite snd_bind. cbn beta iota. rewrite snd_bind.
    destruct (glob_id _ _ (fs w)) as [|first others].
    + match goal with
      | |- context [download_video_with_ytdlp env ?u ?o ?c w] =>
          pose proof (download_video_gets env u o c w) as Hg;
          destruct (download_video_with_ytdlp env u o c w) as [[final|e] w1]
      end; cbn [snd] in Hg; [destruct (Py.truthy_opt final)|]; cbn [snd ret];
        rewrite Hg; lia.
    + unfold ret at 1. destruct (Py.truthy_opt (Some first)); cbn [snd ret]; lia.
  - rewrite snd_bind. cbn beta iota. rewrite snd_bind.
    destruct (glob_id _ _ (fs w)) as [|first others].
    + match goal with
      | |- context [download_video_with_ytdlp env ?u ?o ?c w] =>
          pose proof (download_video_gets env u o c w) as Hg;
          destruct (download_video_with_ytdlp env u o c w) as [[final|e] w1]
      end; cbn [snd] in Hg; [destruct (Py.truthy_opt final)|]; cbn [snd ret];
        rewrite Hg; lia.
    + unfold ret at 1. destruct (Py.truthy_opt (Some first)); cbn [snd ret]; lia.
  - simpl. lia.
Qed.

Lemma handle_all_gets (ms : list Media) :
  forall (media : list MediaItem.t) (w : World),
    (length (gets (trace (snd (handle_all env args tweet ms media w))))
     <= length (gets (trace w)) + 2 * photo_count ms)%nat.
Proof.
  induction ms as [|m ms IH]; intros media w; cbn [handle_all photo_count].
  - simpl. lia.
  - rewrite snd_bind. pose proof (handle_media_gets m media w) as Hm.
    destruct (handle_media env args tweet m media w) as [[media1|e] w1];
      cbn [snd] in Hm.
    + specialize (IH media1 w1). destruct (is_photo m); lia.
    + destruct (is_photo m); lia.
Qed.

(** Before the media loop [build_record] only reads the post. *)
Lemma build_record_world (w : World) :
  snd (build_record env args tweet w) = w \/
  snd (build_record env args tweet w)
  = snd (handle_all env args tweet (media_refs tweet) [] w).
Proof.
  unfold build_record, media_refs.
  destruct (Tweet.date tweet) as [| |d]; [now left | now left|].
  destruct (Tweet.rawContent tweet) as [| |c]; [now left | |];
    right; cbn [require]; unfold bind at 1 2 3; cbn [ret];
    rewrite (snd_bind (handle_all env args tweet _ []));
    now destruct (handle_all env args tweet _ [] w) as [[media|e] w1].
Qed.

End PostFacts.

(** X7: whatever happens, the script sends at most two HTTP requests per
    photo of a post while it builds the record of that post, and none for
    the other media. *)
Theorem X7_at_most_two_requests_per_photo (env : Env) (args : Args)
    (tweet : Tweet.t) (w : World) :
  (length (gets (trace (snd (build_record env args tweet w))))
   <= length (gets (trace w)) + 2 * photo_count (media_refs tweet))%nat.
Proof.
  destruct (build_record_world env args tweet w) as [-> | ->]; [lia|].
  apply handle_all_gets.
Qed.

(** X8: a post whose media list is missing, [None] or empty is handled
    without touching the world: no request, no yt-dlp session, no file. *)
Theorem X8_text_only_post_leaves_world (env : Env) (args : Args)
    (tweet : Tweet.t) (w : World) :
  media_refs tweet = [] ->
  snd (build_record env args tweet w) = w.
Proof.
  intros Hrefs. destruct (build_record_world env args tweet w) as [-> | ->];
    [reflexivity | now rewrite Hrefs].
Qed.

Lemma X8_text_only_post_witness :
  snd (build_record (Sample.quiet_env [] 200) (Sample.args_of 0 50)
         (Sample.text_tweet 1) More.photo_present) = More.photo_present.
Proof.
  apply (X8_text_only_post_leaves_world (Sample.quiet_env [] 200) (Sample.args_of 0 50)
           (Sample.text_tweet 1) More.photo_present).
  reflexivity.
Defined.

(** X9: [download_video_with_ytdlp] never lets an ordinary exception out:
    when yt-dlp raises one the helper returns [None]; only Ctrl-C passes
    through.  An empty cookies string is not handed to yt-dlp. *)
Theorem X9_ytdlp_errors_are_swallowed (env : Env) (tweet_url outtmpl : string)
    (cookies : option string) (w : World) :
  fst (download_video_with_ytdlp env tweet_url outtmpl cookies w) <> Raise Exception /\
  (yt_result (extract_info env w tweet_url outtmpl
                (if Py.truthy_opt cookies then cookies else None)) = Raise Exception ->
   fst (download_video_with_ytdlp env tweet_url outtmpl cookies w) = Ok None) /\
  trace (snd (download_video_with_ytdlp env tweet_url outtmpl cookies w))
  = trace w ++ [EYtdlp tweet_url outtmpl
                  (match cookies with
                   | Some EmptyString => None
                   | other => other
                   end)].
Proof.
  unfold download_video_with_ytdlp, bind, log, raise, ret. cbn beta iota.
  assert (Hc : (if Py.truthy_opt cookies then cookies else None)
               = match cookies with Some EmptyString => None | other => other end).
  { now destruct cookies as [[|c s]|]. }
  rewrite Hc.
  destruct (yt_result _) as [o|[]]; cbn [fst snd trace];
    repeat split; congruence.
Qed.

Section SkipCheck.

Context (env : Env) (args : Args) (tweet : Tweet.t).

Lemma glob_id_truthy (dir id_str p : string) (files : gmap string string) :
  p ∈ glob_id dir id_str files -> Py.truthy p = true.
Proof.
  unfold glob_id. intros [Hm _]%list_elem_of_filter.
  destruct p as [|c p]; [|reflexivity].
  unfold in_dir_matching in Hm. destruct dir; discriminate.
Qed.

End SkipCheck.

(** X10: when the videos directory already holds a file whose name matches
    the pattern of the post, a video or GIF of that post is recorded with
    the first such file and yt-dlp is not started: the world is
    unchanged. *)
Theorem X10_existing_video_is_skipped (env : Env) (args : Args) (tweet : Tweet.t)
    (media : list MediaItem.t) (w : World) (first : string) (others : list string) :
  glob_id (videos_dir (user args)) (Py.str_of_int (Tweet.id tweet)) (fs w)
    = first :: others ->
  handle_media env args tweet Video media w
  = (Ok (media ++ [{| MediaItem.type := "video";
                      MediaItem.url := tweet_url_of (user args) tweet;
                      MediaItem.local_path := Some first |}]), w) /\
  handle_media env args tweet Gif media w
  = (Ok (media ++ [{| MediaItem.type := "gif";
                      MediaItem.url := tweet_url_of (user args) tweet;
                      MediaItem.local_path := Some first |}]), w).
Proof.
  intros Hglob.
  assert (Ht : Py.truthy first = true).
  { eapply glob_id_truthy. rewrite Hglob. apply list_elem_of_here. }
  unfold handle_media, bind, ret. rewrite Hglob. cbn [Py.truthy_opt].
  rewrite Ht. split; reflexivity.
Qed.

Lemma X10_existing_video_witness :
  handle_media (Sample.quiet_env [] 404) (Sample.args_of 0 50) More.two_videos
    Gif [] More.video_present
  = (Ok [{| MediaItem.type := "gif";
            MediaItem.url := "https://x.com/u/status/9";
            MediaItem.local_path := Some "downloads/u/videos/9-abc.mp4" |}],
     More.video_present).
Proof.
  destruct (X10_existing_video_is_skipped (Sample.quiet_env [] 404) (Sample.args_of 0 50)
              More.two_videos [] More.video_present
              "downloads/u/videos/9-abc.mp4" []) as [_ Hgif].
  - vm_compute. reflexivity.
  - exact Hgif.
Defined.

Section Survival.

Context (env : Env) (args : Args) (tweet : Tweet.t).
Hypothesis Hserver : server_answers env.
Hypothesis Hytdlp : ytdlp_uninterrupted env.

Lemma download_image_answers (url dest : string) (w : World) :
  exists ok w', download_image env url dest w = (Ok ok, w').
Proof.
  destruct (Hserver w url) as (code & chunks & Hr).
  destruct (Z.eq_dec code 200) as [->|Hne].
  - rewrite (download_image_200 env url dest w chunks None Hr). eauto.
  - rewrite (download_image_refused env url dest w code chunks None Hr Hne). eauto.
Qed.

Lemma fetch_photo_answers (url dest : string) (w : World) :
  exists w', fetch_photo env url dest w = (Ok tt, w').
Proof.
  unfold fetch_photo, bind, path_exists, ret.
  destruct (bool_decide _); [eauto|].
  destruct (download_image_answers url dest w) as (ok & w1 & ->).
  destruct ok; [eauto|]. destruct (negb _); [|eauto].
  destruct (download_image_answers (url +:+ "?name=orig") dest w1) as (ok2 & w2 & ->).
  eauto.
Qed.

Lemma download_video_answers (tweet_url outtmpl : string) (cookies : option string)
    (w : World) :
  exists final w', download_video_with_ytdlp env tweet_url outtmpl cookies w
                   = (Ok final, w').
Proof.
  unfold download_video_with_ytdlp, bind, log, raise, ret. cbn beta iota.
  pose proof (Hytdlp w tweet_url outtmpl
                (if Py.truthy_opt cookies then cookies else None)) as Hy.
  destruct (yt_result _) as [o|[]]; [eauto | congruence | eauto].
Qed.

Lemma handle_media_answers (m : Media) (media : list MediaItem.t) (w : World) :
  exists media' w', handle_media env args tweet m media w = (Ok media', w').
Proof.
  unfold handle_media. destruct m as [fullUrl url0| | |].
  - destruct (Py.or_else fullUrl url0) as [url|]; [|unfold ret; eauto].
    destruct (negb (Py.truthy url)); [unfold ret; eauto|].
    match goal with
    | |- context [fetch_photo env ?u ?d] =>
        destruct (fetch_photo_answers u d w) as (w1 & Hf)
    end.
    rewrite (bind_Ok _ _ _ _ _ Hf). unfold bind, path_exists, ret.
    destruct (bool_decide _); eauto.
  - unfold bind at 1. cbn beta iota.
    destruct (glob_id _ _ (fs w)) as [|first others].
    + match goal with
      | |- context [download_video_with_ytdlp env ?u ?o ?c] =>
          destruct (download_video_answers u o c w) as (final & w1 & Hd)
      end.
      rewrite (bind_Ok _ _ _ _ _ Hd). unfold ret.
      destruct (Py.truthy_opt final); eauto.
    + unfold bind, ret. destruct (Py.truthy_opt (Some first)); eauto.
  - unfold bind at 1. cbn beta iota.
    destruct (glob_id _ _ (fs w)) as [|first others].
    + match goal with
      | |- context [download_video_with_ytdlp env ?u ?o ?c] =>
          destruct (download_video_answers u o c w) as (final & w1 & Hd)
      end.
      rewrite (bind_Ok _ _ _ _ _ Hd). unfold ret.
      destruct (Py.truthy_opt final); eauto.
    + unfold bind, ret. destruct (Py.truthy_opt (Some first)); eauto.
  - unfold ret. eauto.
Qed.

Lemma handle_all_answers (ms : list Media) :
  forall (media : list MediaItem.t) (w : World),
    exists media' w', handle_all env args tweet ms media w = (Ok media', w').
Proof.
  induction ms as [|m ms IH]; intros media w; cbn [handle_all].
  - unfold ret. eauto.
  - destruct (handle_media_answers m media w) as (media1 & w1 & Hm).
    rewrite (bind_Ok _ _ _ _ _ Hm). apply IH.
Qed.

End Survival.

(** X11: HTTP error statuses and yt-dlp failures never make a post fail.
    When the server always answers with a status and a complete body, and
    no yt-dlp session is interrupted, every post that has a date and a
    text attribute gets its record (possibly with fewer media). *)
Theorem X11_post_survives_failed_downloads (env : Env) (args : Args)
    (tweet : Tweet.t) (w : World) (d : string) :
  server_answers env ->
  ytdlp_uninterrupted env ->
  Tweet.date tweet = Val d ->
  Tweet.rawContent tweet <> Missing ->
  exists rec w',
    build_record env args tweet w = (Ok rec, w') /\
    TweetRecord.id rec = Tweet.id tweet /\
    TweetRecord.date rec = d.
Proof.
  intros Hserver Hytdlp Hdate Hraw. unfold build_record. rewrite Hdate.
  destruct (handle_all_answers env args tweet Hserver Hytdlp
              (default [] (getattr (Tweet.media tweet))) [] w) as (media & w1 & Hm).
  destruct (Tweet.rawContent tweet) as [| |c]; [congruence | |];
    cbn [require]; unfold bind at 1 2 3; cbn [ret];
    rewrite (bind_Ok _ _ _ _ _ Hm); unfold ret; eauto.
Qed.

Lemma X11_post_survives_witness :
  exists rec w',
    build_record (Sample.quiet_env [] 404) (Sample.args_of 0 50) More.one_photo
      Sample.empty_world = (Ok rec, w') /\
    TweetRecord.id rec = 7.
Proof.
  destruct (X11_post_survives_failed_downloads (Sample.quiet_env [] 404)
              (Sample.args_of 0 50) More.one_photo Sample.empty_world
              "2024-05-02T08:30:00+00:00") as (rec & w' & Hb & Hid & _).
  - intros w url. now exists 404, ["data"].
  - intros w u o c. discriminate.
  - reflexivity.
  - discriminate.
  - exists rec, w'. split; [exact Hb | exact Hid].
Defined.

Section PhotoPaths.

Context (env : Env) (args : Args) (tweet : Tweet.t).

Lemma forbidden_not_slash (c : ascii) : forbidden c = false -> Ascii.eqb c "/" = false.
Proof.
  destruct c as [[] [] [] [] [] [] [] []]; vm_compute; intros H;
    first [reflexivity | discriminate H].
Qed.

Lemma re_sub_nonempty (s : string) : s <> EmptyString -> re_sub s <> EmptyString.
Proof.
  destruct s as [|c s]; [congruence|]. intros _. unfold re_sub. cbn [re_sub_from].
  destruct (forbidden c); discriminate.
Qed.

Lemma photo_name_shape (n : Z) (s : string) :
  let fname := safe_filename (Py.str_of_int n +:+ "_" +:+ s) default_maxlen in
  fname <> EmptyString /\ all_allowed fname = true /\ Py.len fname <= default_maxlen.
Proof.
  cbn zeta. rewrite safe_filename_take by (unfold default_maxlen; lia).
  repeat split.
  - assert (Hne : re_sub (Py.str_of_int n +:+ "_" +:+ s) <> EmptyString).
    { apply re_sub_nonempty. destruct (Py.str_of_int n); discriminate. }
    destruct (re_sub _) as [|c r]; [congruence|].
    change (Z.to_nat default_maxlen) with (S 149). discriminate.
  - apply take_allowed, re_sub_from_allowed.
  - unfold Py.len. rewrite str_take_length. unfold default_maxlen. lia.
Qed.

Lemma photo_dest_inside (n : Z) (s : string) :
  safely_inside (images_dir (user args))
    (path_join (images_dir (user args))
       (safe_filename (Py.str_of_int n +:+ "_" +:+ s) default_maxlen))
    default_maxlen.
Proof.
  destruct (photo_name_shape n s) as (Hne & Hall & Hlen).
  exists (safe_filename (Py.str_of_int n +:+ "_" +:+ s) default_maxlen).
  repeat split; try assumption.
  destruct (safe_filename _ _) as [|c r]; [congruence|].
  cbn [all_allowed] in Hall. apply andb_prop in Hall as [Hc _].
  apply negb_true_iff in Hc. unfold path_join.
  now rewrite (forbidden_not_slash c Hc).
Qed.

Lemma handle_media_photo_inside (m : Media) (media media' : list MediaItem.t)
    (w w' : World) :
  handle_media env args tweet m media w = (Ok media', w') ->
  Forall (photo_inside_images args) media ->
  Forall (photo_inside_images args) media'.
Proof.
  intros Hm Hall. destruct m as [fullUrl url0| | |].
  - unfold handle_media in Hm.
    destruct (Py.or_else fullUrl url0) as [url|]; [|now injection Hm as <- <-].
    destruct (negb (Py.truthy url)); [now injection Hm as <- <-|].
    apply bind_Ok_inv in Hm as (u & w1 & _ & Hrest).
    unfold bind, path_exists, ret in Hrest.
    destruct (bool_decide _); injection Hrest as <- <-; [|exact Hall].
    apply Forall_app. split; [exact Hall|]. constructor; [|constructor].
    intros _. eexists. split; [reflexivity|]. apply photo_dest_inside.
  - apply handle_media_step in Hm as [_ [-> | (item & -> & Hj)]]; [exact Hall|].
    apply Forall_app. split; [exact Hall|]. constructor; [|constructor].
    intros Hty. destruct Hj as [[H|H] _]; rewrite H in Hty; discriminate.
  - apply handle_media_step in Hm as [_ [-> | (item & -> & Hj)]]; [exact Hall|].
    apply Forall_app. split; [exact Hall|]. constructor; [|constructor].
    intros Hty. destruct Hj as [[H|H] _]; rewrite H in Hty; discriminate.
  - now injection Hm as <- <-.
Qed.

Lemma handle_all_photo_inside (ms : list Media) :
  forall (media media' : list MediaItem.t) (w w' : World),
    handle_all env args tweet ms media w = (Ok media', w') ->
    Forall (photo_inside_images args) media ->
    Forall (photo_inside_images args) media'.
Proof.
  induction ms as [|m ms IH]; intros media media' w w'; cbn [handle_all].
  - now intros [= <- <-].
  - intros (media1 & w1 & Hm & Hrest)%bind_Ok_inv Hall.
    eapply IH; [exact Hrest|]. eapply handle_media_photo_inside; eauto.
Qed.

End PhotoPaths.

(** X12: whatever the URL of a photo looks like, the file recorded for it
    lies directly inside the images directory of the account: its name is
    not empty, holds no slash, backslash or other forbidden character, and
    is at most 150 characters long. *)
Theorem X12_photos_stay_in_images_dir (env : Env) (args : Args) (tweet : Tweet.t)
    (w w' : World) (rec : TweetRecord.t) :
  build_record env args tweet w = (Ok rec, w') ->
  forall item, item ∈ TweetRecord.media rec -> MediaItem.type item = "photo" ->
    exists p, MediaItem.local_path item = Some p /\
              safely_inside (images_dir (user args)) p default_maxlen.
Proof.
  intros Hb%build_record_media item Hin.
  apply handle_all_photo_inside in Hb; [|constructor].
  apply (proj1 (Forall_forall _ _) Hb item Hin).
Qed.

Lemma X12_photos_stay_witness :
  exists rec w',
    build_record (Sample.quiet_env [] 200) (Sample.args_of 0 50) Cases.photo_tweet
      Sample.empty_world = (Ok rec, w') /\
    forall item, item ∈ TweetRecord.media rec -> MediaItem.type item = "photo" ->
      exists p, MediaItem.local_path item = Some p /\
                safely_inside "downloads/u/images" p 150.
Proof.
  pose (r := build_record (Sample.quiet_env [] 200) (Sample.args_of 0 50)
               Cases.photo_tweet Sample.empty_world).
  assert (Hr : exists rec, r = (Ok rec, snd r)).
  { vm_compute. eexists. reflexivity. }
  destruct Hr as [rec Hr]. exists rec, (snd r). split; [exact Hr|].
  exact (X12_photos_stay_in_images_dir (Sample.quiet_env [] 200) (Sample.args_of 0 50)
           Cases.photo_tweet Sample.empty_world (snd r) rec Hr).
Defined.

Section PostIds.

Lemma strip_prefix_digits (sb : string) :
  forall (sa rest r : string),
    Reader.all_digits sa = true -> Reader.all_digits sb = true ->
    Py.strip_prefix (sb +:+ "-") (sa +:+ "-" +:+ rest) = Some r ->
    sa = sb.
Proof.
  induction sb as [|d sb IH]; intros sa rest r Ha Hb.
  - destruct sa as [|c sa]; [reflexivity|].
    cbn [String.append Py.strip_prefix Reader.all_digits] in *.
    apply andb_prop in Ha as [Hc _].
    rewrite Ascii.eqb_sym, (digit_not_minus c Hc). discriminate.
  - cbn [Reader.all_digits] in Hb. apply andb_prop in Hb as [Hd Hb].
    destruct sa as [|c sa]; cbn [String.append Py.strip_prefix].
    + rewrite (digit_not_minus d Hd). discriminate.
    + cbn [Reader.all_digits] in Ha. apply andb_prop in Ha as [Hc Ha].
      destruct (Ascii.eqb_spec d c) as [->|]; [|discriminate].
      intros H. f_equal. exact (IH sa rest r Ha Hb H).
Qed.

Lemma str_of_int_digits (n : Z) : 0 <= n -> Reader.all_digits (Py.str_of_int n) = true.
Proof.
  intros Hn. unfold Py.str_of_int. destruct n as [|p|p]; [reflexivity | | lia].
  apply string_of_uint_digits.
Qed.

Lemma str_of_int_inj (a b : Z) : Py.str_of_int a = Py.str_of_int b -> a = b.
Proof.
  unfold Py.str_of_int. intros H.
  apply (f_equal NilEmpty.int_of_string) in H. rewrite !NilEmpty.isi in H.
  injection H as H. now apply DecimalZ.to_int_inj.
Qed.

End PostIds.

(** X13: the skip check never takes the video of one post for the video of
    another: a file named after post [a] by the output template (its id, a
    dash, anything) matches the pattern of post [b] only when [a = b]. *)
Theorem X13_skip_check_tells_posts_apart (a b : Z) (rest : string) :
  0 <= a -> 0 <= b ->
  fnmatch_id (Py.str_of_int b) (Py.str_of_int a +:+ "-" +:+ rest) = true ->
  a = b.
Proof.
  intros Ha Hb. unfold fnmatch_id.
  destruct (Py.strip_prefix _ _) as [r|] eqn:Hs; [|discriminate].
  intros _. apply str_of_int_inj.
  eapply strip_prefix_digits; eauto using str_of_int_digits.
Qed.

Lemma X13_skip_check_witness :
  0 <= 12 /\ 0 <= 12 /\
  fnmatch_id (Py.str_of_int 12) (Py.str_of_int 12 +:+ "-" +:+ "abc.mp4") = true /\
  fnmatch_id (Py.str_of_int 12) (Py.str_of_int 123 +:+ "-" +:+ "abc.mp4") = false /\
  12 = 12.
Proof.
  split; [lia|]. split; [lia|]. split; [reflexivity|]. split; [reflexivity|].
  apply (X13_skip_check_tells_posts_apart 12 12 "abc.mp4"); [lia | lia | reflexivity].
Defined.

(* ===================================================================== *)
(** * Beyond the claims: the iterator and the loop *)
(* ===================================================================== *)

Section IteratorFacts.

Lemma iter_from_ending (lim : Z) (items : list Tweet.t) (ending : option exn) :
  0 < lim ->
  forall count, 0 <= count <= lim ->
    snd (iter_from lim count items ending)
    = if Z.of_nat (length items) >? lim - count then None else ending.
Proof.
  intros Hlim. induction items as [|t items IH]; intros count Hc; cbn [iter_from length].
  - destruct (Z.gtb_spec (Z.of_nat 0) (lim - count)); [lia | reflexivity].
  - destruct (Z.eqb_spec lim 0) as [|_]; [lia|]. cbn [negb andb].
    destruct (Z.geb_spec count lim) as [Hge|Hlt].
    + cbn [snd]. destruct (Z.gtb_spec (Z.of_nat (S (length items))) (lim - count));
        [reflexivity | lia].
    + specialize (IH (count + 1) ltac:(lia)).
      destruct (iter_from lim (count + 1) items ending) as [more e]. cbn [snd] in *.
      rewrite IH.
      destruct (Z.gtb_spec (Z.of_nat (length items)) (lim - (count + 1)));
        destruct (Z.gtb_spec (Z.of_nat (S (length items))) (lim - count));
        try reflexivity; lia.
Qed.

Lemma iter_from_sublist (lim : Z) (items : list Tweet.t) (ending : option exn) :
  forall count, sublist (fst (iter_from lim count items ending)) items.
Proof.
  induction items as [|t items IH]; intros count; cbn [iter_from].
  - constructor.
  - destruct (_ && _); [apply sublist_nil_l|].
    specialize (IH (count + 1)).
    destruct (iter_from lim (count + 1) items ending) as [more e]. cbn [fst] in *.
    now apply sublist_skip.
Qed.

End IteratorFacts.

(** X14: with a limit N >= 1 the generator takes one more item from the
    scraper before it stops.  So a failure of the scraper stays hidden
    only when the scraper has more than N posts to give; when it has N or
    fewer and then fails, the failure reaches [main] even if N posts were
    delivered. *)
Theorem X14_limit_and_scraper_failure (env : Env) (username : string)
    (since : option string) (lim : Z) :
  0 < lim ->
  snd (iter_user_tweets env username since lim)
  = if Z.of_nat (length (fst (get_items env (build_query username since)))) >? lim
    then None
    else snd (get_items env (build_query username since)).
Proof.
  intros Hlim. unfold iter_user_tweets.
  destruct (get_items env (build_query username since)) as [items ending].
  rewrite iter_from_ending by lia. cbn [fst snd]. now rewrite Z.sub_0_r.
Qed.

Lemma X14_limit_and_scraper_failure_witness :
  0 < 2 /\
  snd (iter_user_tweets More.failing_source_env "u" None 2) = Some Exception /\
  snd (iter_user_tweets More.failing_source_env "u" None 1) = None /\
  fst (fst (main More.failing_source_env (Sample.args_of 2 50) Sample.empty_world))
    = Crashed Exception.
Proof.
  split; [lia|]. split; [|split].
  - rewrite (X14_limit_and_scraper_failure More.failing_source_env "u" None 2) by lia.
    reflexivity.
  - reflexivity.
  - reflexivity.
Defined.

Section LoopFacts.

Context (env : Env) (args : Args).

Lemma try_block_counter (t : Tweet.t) (st st1 : loop_state) (w w1 : World)
    (r : result unit) :
  try_block env args t st w = (r, st1, w1) ->
  (r = Raise Exception -> st1 = st) /\
  (r <> Raise Exception -> r = Ok tt \/ r = Raise KeyboardInterrupt) /\
  (r = Ok tt -> consec_errors st1 = 0) /\
  (r = Raise KeyboardInterrupt -> consec_errors st1 = consec_errors st \/
                                  consec_errors st1 = 0).
Proof.
  destruct (try_block_cases env args t st w) as
    [(e & w2 & Hb & Ht) | (rec & w2 & Hb & [[Ht Hs] | [Ht Hs]])];
    rewrite Ht; intros [= <- <- <-]; repeat split; try congruence; auto.
  destruct e; auto. congruence.
Qed.

Lemma run_loop_counter (tweets : list Tweet.t) (ending : option exn) :
  1 <= max_consec_errors args ->
  forall (st st' : loop_state) (w w' : World) (how : loop_exit),
    0 <= consec_errors st < max_consec_errors args ->
    run_loop env args tweets ending st w = (how, st', w') ->
    (how = TooManyErrors /\ consec_errors st' = max_consec_errors args) \/
    (how <> TooManyErrors /\ 0 <= consec_errors st' < max_consec_errors args).
Proof.
  intros HK. induction tweets as [|t tweets IH]; intros st st' w w' how Hst;
    cbn [run_loop].
  - intros [= <- <- <-]. right. split; [destruct ending; discriminate | exact Hst].
  - destruct (try_block env args t st w) as [[r st1] w1] eqn:Htry.
    destruct (try_block_counter t st st1 w w1 r Htry) as (Hexc & _ & Hok & Hint).
    destruct r as [[]|[]].
    + apply IH. rewrite Hok by reflexivity. lia.
    + intros [= <- <- <-]. right. split; [discriminate|].
      destruct (Hint eq_refl) as [-> | ->]; lia.
    + rewrite (Hexc eq_refl). cbn [records consec_errors].
      destruct (Z.geb_spec (consec_errors st + 1) (max_consec_errors args)).
      * intros [= <- <- <-]. left. cbn [consec_errors]. split; [reflexivity | lia].
      * destruct (sleep env 1000 w1) as [[[]|e] w2].
        { apply IH. cbn [consec_errors]. lia. }
        { intros [= <- <- <-]. right. cbn [consec_errors].
          split; [discriminate | lia]. }
Qed.

End LoopFacts.

(** X15: with a budget K >= 1 the error counter stays between 0 and K: it
    equals K exactly when the loop ends with the too-many-errors message,
    and is below K however else the loop ends. *)
Theorem X15_error_counter_stays_in_budget (env : Env) (args : Args)
    (tweets : list Tweet.t) (ending : option exn)
    (st' : loop_state) (w w' : World) (how : loop_exit) :
  1 <= max_consec_errors args ->
  run_loop env args tweets ending initial_state w = (how, st', w') ->
  (how = TooManyErrors /\ consec_errors st' = max_consec_errors args) \/
  (how <> TooManyErrors /\ 0 <= consec_errors st' < max_consec_errors args).
Proof.
  intros HK Hrun.
  eapply run_loop_counter; [exact HK | | exact Hrun]. cbn. lia.
Qed.

Lemma X15_error_counter_witness :
  1 <= max_consec_errors Runs.streak_args /\
  consec_errors
    (snd (fst (run_loop Runs.streak_env Runs.streak_args Runs.streak_items None
                 initial_state Sample.empty_world))) = 2.
Proof.
  split; [vm_compute; discriminate|].
  pose (r := run_loop Runs.streak_env Runs.streak_args Runs.streak_items None
               initial_state Sample.empty_world).
  destruct (X15_error_counter_stays_in_budget Runs.streak_env Runs.streak_args
              Runs.streak_items None (snd (fst r)) Sample.empty_world (snd r)
              TooManyErrors) as [[_ H] | [H _]].
  - vm_compute. discriminate.
  - reflexivity.
  - exact H.
  - now destruct H.
Defined.

(** X16: a budget of 1, of 0 or a negative budget all mean the same: the
    first post that raises an exception other than Ctrl-C ends the loop,
    without a back-off sleep. *)
Theorem X16_small_budget_stops_at_first_failure (env : Env) (args : Args)
    (t : Tweet.t) (rest : list Tweet.t) (ending : option exn)
    (st : loop_state) (w w1 : World) :
  max_consec_errors args <= 1 ->
  0 <= consec_errors st ->
  build_record env args t w = (Raise Exception, w1) ->
  run_loop env args (t :: rest) ending st w
  = (TooManyErrors,
     {| records := records st; consec_errors := consec_errors st + 1 |}, w1).
Proof.
  intros HK Hst Hb. cbn [run_loop]. unfold try_block. rewrite Hb.
  cbn [records consec_errors].
  now destruct (Z.geb_spec (consec_errors st + 1) (max_consec_errors args)); [|lia].
Qed.

Lemma X16_small_budget_witness :
  run_loop (Sample.quiet_env [] 200) (Sample.args_of 0 (-5))
    [Sample.broken_tweet 2; Sample.text_tweet 3] None initial_state Sample.empty_world
  = (TooManyErrors, {| records := []; consec_errors := 1 |}, Sample.empty_world).
Proof.
  apply (X16_small_budget_stops_at_first_failure (Sample.quiet_env [] 200)
           (Sample.args_of 0 (-5)) (Sample.broken_tweet 2) [Sample.text_tweet 3] None
           initial_state Sample.empty_world Sample.empty_world).
  - vm_compute. discriminate.
  - vm_compute. discriminate.
  - reflexivity.
Defined.

Section OutputFacts.

Context (env : Env) (args : Args).

Lemma build_record_fields (tweet : Tweet.t) (w w' : World) (rec : TweetRecord.t) :
  build_record env args tweet w = (Ok rec, w') ->
  TweetRecord.id rec = Tweet.id tweet /\
  TweetRecord.url rec = tweet_url_of (user args) tweet.
Proof.
  unfold build_record.
  intros (d & w1 & Hd & H)%bind_Ok_inv.
  apply bind_Ok_inv in H as (d' & w2 & Hd' & H).
  apply bind_Ok_inv in H as (c & w3 & Hc & H).
  apply bind_Ok_inv in H as (media & w4 & Hm & H).
  injection H as <- <-. split; reflexivity.
Qed.

Lemma built_ids (recs : list TweetRecord.t) (ts : list Tweet.t) :
  Forall2 (built env args) recs ts -> map TweetRecord.id recs = map Tweet.id ts.
Proof.
  induction 1 as [|r t recs ts (w & w' & Hb) _ IH]; [reflexivity|].
  cbn [map]. f_equal; [|exact IH]. now apply build_record_fields in Hb as [-> _].
Qed.

Lemma sublist_map {A B} (f : A -> B) (l k : list A) :
  sublist l k -> sublist (map f l) (map f k).
Proof. induction 1; cbn [map]; constructor; assumption. Qed.

Lemma build_record_answers (tweet : Tweet.t) (w : World) :
  server_answers env -> ytdlp_uninterrupted env -> well_formed tweet ->
  exists rec w', build_record env args tweet w = (Ok rec, w').
Proof.
  intros Hserver Hytdlp [[d Hdate] Hraw]. unfold build_record. rewrite Hdate.
  destruct (handle_all_answers env args tweet Hserver Hytdlp
              (default [] (getattr (Tweet.media tweet))) [] w) as (media & w1 & Hm).
  destruct (Tweet.rawContent tweet) as [| |c]; [congruence | |];
    cbn [require]; unfold bind at 1 2 3; cbn [ret];
    rewrite (bind_Ok _ _ _ _ _ Hm); unfold ret; eauto.
Qed.

Lemma run_loop_clean (tweets : list Tweet.t) (ending : option exn) :
  server_answers env -> ytdlp_uninterrupted env -> sleeps_uninterrupted env ->
  Forall well_formed tweets ->
  forall (st : loop_state) (w : World),
    exists st' w',
      run_loop env args tweets ending st w
      = (match ending with None => Exhausted | Some e => Crashed e end, st', w') /\
      map TweetRecord.id (records st')
      = map TweetRecord.id (records st) ++ map Tweet.id tweets.
Proof.
  intros Hserver Hytdlp Hsleep Hall.
  induction Hall as [|t tweets Ht _ IH]; intros st w; cbn [run_loop].
  - exists st, w. split; [reflexivity|]. cbn [map]. now rewrite app_nil_r.
  - destruct (build_record_answers t w Hserver Hytdlp Ht) as (rec & w1 & Hb).
    unfold try_block. rewrite Hb. unfold sleep at 1. rewrite Hsleep.
    match goal with
    | |- context [run_loop env args tweets ending ?s ?w0] =>
        destruct (IH s w0) as (st' & w' & Hrun & Hids)
    end.
    exists st', w'. split; [exact Hrun|].
    rewrite Hids. cbn [records]. rewrite map_app. cbn [map].
    apply build_record_fields in Hb as [-> _]. now rewrite <- app_assoc.
Qed.

End OutputFacts.

(** X19: the line-delimited file holds exactly one line per record, in
    order, each line being the compact JSON text of the record, and it
    ends with a line feed; a line feed inside the text of a post does not
    break a line, because the encoder escapes it. *)
Theorem X19_one_line_per_record (recs : list TweetRecord.t) :
  Py.split_on Json.LF (jsonl_text (out_data recs))
  = map Json.dumps (out_data recs) ++ [EmptyString].
Proof.
  induction (out_data recs) as [|r data IH]; [reflexivity|].
  cbn [jsonl_text map app]. rewrite append_assoc. cbn [String.append].
  rewrite split_on_line by apply dumps_lacks_LF. now rewrite IH.
Qed.

(** X20: no post is recorded twice: when the ids of the posts the scraper
    yields are all different, so are the ids of the records of the run,
    whatever the limit and whichever posts fail. *)
Theorem X20_no_post_recorded_twice (env : Env) (args : Args) (w : World) :
  NoDup (map Tweet.id (fst (get_items env (build_query (user args) (since args))))) ->
  NoDup (map TweetRecord.id (snd (fst (main env args w)))).
Proof.
  intros Hnodup.
  destruct (main_records_built env args w) as (ts & Hsub & Hall).
  rewrite (built_ids env args _ _ Hall).
  eapply sublist_NoDup; [exact Hnodup|]. apply sublist_map.
  etransitivity; [exact Hsub|]. unfold iter_user_tweets.
  destruct (get_items env (build_query (user args) (since args))) as [items ending].
  apply iter_from_sublist.
Qed.

Lemma X20_no_post_recorded_twice_witness :
  NoDup (map TweetRecord.id
           (snd (fst (main Runs.streak_env Runs.streak_args Sample.empty_world)))).
Proof.
  apply (X20_no_post_recorded_twice Runs.streak_env Runs.streak_args Sample.empty_world).
  apply (bool_decide_unpack _). vm_compute. exact I.
Defined.

(** X21: when nothing goes wrong nothing is dropped: if the server always
    answers, neither yt-dlp nor a sleep is interrupted, and every post the
    iterator yields has a date and a text attribute, then the loop goes
    through all of them and the run has one record per yielded post, in
    yield order. *)
Theorem X21_clean_run_records_every_post (env : Env) (args : Args) (w : World) :
  server_answers env ->
  ytdlp_uninterrupted env ->
  sleeps_uninterrupted env ->
  Forall well_formed (fst (iter_user_tweets env (user args) (since args) (limit args))) ->
  fst (fst (main env args w))
    = match snd (iter_user_tweets env (user args) (since args) (limit args)) with
      | None => Exhausted
      | Some e => Crashed e
      end /\
  map TweetRecord.id (snd (fst (main env args w)))
    = map Tweet.id (fst (iter_user_tweets env (user args) (since args) (limit args))).
Proof.
  intros Hserver Hytdlp Hsleep Hall.
  destruct (iter_user_tweets env (user args) (since args) (limit args))
    as [tweets ending] eqn:Hit. cbn [fst snd] in *.
  destruct (run_loop_clean env args tweets ending Hserver Hytdlp Hsleep Hall
              initial_state w) as (st' & w' & Hrun & Hids).
  rewrite (main_unfold env args w w' _ _ _ _ Hit Hrun). cbn [fst snd].
  split; [reflexivity | exact Hids].
Qed.

Lemma X21_clean_run_witness :
  fst (fst (main Runs.limit_env Runs.limit_args Sample.empty_world)) = Exhausted /\
  map TweetRecord.id (snd (fst (main Runs.limit_env Runs.limit_args Sample.empty_world)))
    = [1; 2].
Proof.
  destruct (X21_clean_run_records_every_post Runs.limit_env Runs.limit_args
              Sample.empty_world) as [Hhow Hids].
  - intros w url. now exists 200, ["data"].
  - intros w u o c. discriminate.
  - intros w millis. reflexivity.
  - vm_compute. repeat constructor; try (eexists; reflexivity); discriminate.
  - split; [exact Hhow | exact Hids].
Defined.
